(** * TamlBinaryWriter: the binary TAML encoder of Torque2D

    A shallow embedding of
    [engine/source/persistence/taml/tamlBinaryWriter.cc] and the proofs of
    the properties its specification states about it.

    The C++ code walks a pointer graph ([TamlWriteNode], [TamlCustomNode])
    and pushes typed values into a [Stream&].  The embedding keeps both:
    nodes live in a heap indexed by addresses, so that sharing, dangling
    pointers and cycles are expressible, and an encoder is a function from
    the stream state to an outcome.  The recursion of the C++ code is not
    structural on a heap, so the recursive encoders take a bound on the
    nesting depth ([fuel]); termination is then a theorem, not an artefact
    of the embedding. *)

From stdpp Require Import base tactics option list gmap strings.
From Stdlib Require Import ZArith.

(** ** Scalars *)

(** The cast [(U32)x] of a container size: the value modulo [2^32]. *)
Definition U32_of_size (n : nat) : Z := (Z.of_nat n mod 2 ^ 32)%Z.

(** ** The stream interface *)

(** What one typed write call hands to the stream: the overload of
    [Stream::write] that C++ selects, with its argument. [stream.write( 0 )]
    with an [int] literal selects the [S32] overload, [(U32)n] the [U32]
    one. *)
Inductive Datum : Type :=
  | DString (str : string)
  | DLongString (maxStringLen : Z) (str : string)
  | DU32 (v : Z)
  | DS32 (v : Z)
  | DBool (v : bool).

Global Instance Datum_eq_dec : EqDecision Datum.
Proof. solve_decision. Defined.

(** Modelled from the spec: the class [Stream] (io/stream.h is outside
    the file verified here).  The spec lists it as the external String/Scalar
    Writer: "length-prefixed and bounded-length string writes, fixed-width
    scalar writes", whose failure is an "I/O failure of the underlying
    stream".  A stream is any state with one virtual write that accepts a
    datum and reports success. *)
Class Stream (S : Type) := _write : Datum → S → bool * S.

(** ** Outcomes and the encoder monad *)

(** The ways a call can end: it returns; [AssertFatal] stops the process
    (the stream is left as it was at that point); it dereferences an
    address the heap does not hold (undefined behaviour in C++); or the
    depth bound of the embedding is used up. *)
Inductive Outcome (A S : Type) : Type :=
  | Returned (a : A) (s : S)
  | AssertFailed (msg : string) (s : S)
  | InvalidPointer
  | OutOfFuel.
Global Arguments Returned {A S} a s.
Global Arguments AssertFailed {A S} msg s.
Global Arguments InvalidPointer {A S}.
Global Arguments OutOfFuel {A S}.

Definition Enc (S A : Type) : Type := S → Outcome A S.

Global Instance Enc_ret {S} : MRet (Enc S) := λ A a s, Returned a s.
Global Instance Enc_bind {S} : MBind (Enc S) := λ A B k m s,
  match m s with
  | Returned a s' => k a s'
  | AssertFailed msg s' => AssertFailed msg s'
  | InvalidPointer => InvalidPointer
  | OutOfFuel => OutOfFuel
  end.

Section Primitives.
Context {S : Type} `{!Stream S}.

(** The typed writes of [Stream]: each is one call of the virtual write
    and hands back its success flag. *)
Definition put (d : Datum) : Enc S bool :=
  λ s, let '(ok, s') := _write d s in Returned ok s'.

Definition writeString (str : string) : Enc S bool := put (DString str).
Definition writeLongString (maxStringLen : Z) (str : string) : Enc S bool :=
  put (DLongString maxStringLen str).
Definition write_U32 (v : Z) : Enc S bool := put (DU32 v).
Definition write_S32 (v : Z) : Enc S bool := put (DS32 v).
Definition write_bool (v : bool) : Enc S bool := put (DBool v).

(** The stream after the given write calls, made in order. *)
Definition emit (ds : list Datum) (s : S) : S :=
  fold_left (λ s d, (_write d s).2) ds s.

(** [p->...] on an address of the heap. *)
Definition deref {T} (m : gmap positive T) (p : positive) : Enc S T :=
  λ s, match m !! p with Some x => Returned x s | None => InvalidPointer end.

(** Modelled from the spec: the macro [AssertFatal] (platform/platformAssert.h
    is outside the file verified here).  The spec has the encoder "fail
    fast / abort" on a violated assertion. *)
Definition AssertFatal (cond : bool) (msg : string) : Enc S unit :=
  λ s, if cond then Returned tt s else AssertFailed msg s.

Definition outOfFuel {A} : Enc S A := λ _, OutOfFuel.

(** [for( itr = v.begin(); itr != v.end(); ++itr ) body( *itr )]. *)
Fixpoint forEach {T} (body : T → Enc S unit) (v : list T) : Enc S unit :=
  match v with
  | [] => mret tt
  | x :: v' => _ ← body x; forEach body v'
  end.
End Primitives.

(** ** The object model *)

(** An address. A pointer that the code tests against [NULL] is an
    [option ptr]; one that it dereferences without a test is a [ptr], and
    an invalid one (null included) is an address outside the heap. *)
Definition ptr : Type := positive.

(** Modelled from the spec: the classes [SimObject], [TamlWriteNode] and
    [TamlCustomNode] with their parts (their headers are outside the file
    verified here). The members and accessors are those that
    tamlBinaryWriter.cc reads, typed as the data model of the spec has
    them: names and values are strings, ids are integers, containers are
    ordered sequences, owned and referenced nodes are addresses. *)
Record SimObject : Type := { getClassName : string }.

Record FieldValuePair : Type := { mName : string; mpValue : string }.

Record TamlCustomNodes : Type := { getNodes : list ptr }.

Record TamlWriteNode : Type := {
  mpSimObject : SimObject;
  mpObjectName : option string;
  mRefId : Z;
  mRefToNode : option ptr;
  mFields : list FieldValuePair;
  mChildren : option (list ptr);
  mCustomNodes : TamlCustomNodes
}.

Record TamlCustomNodeField : Type := {
  getFieldName : string;
  getFieldValue : string
}.

Record TamlCustomNode : Type := {
  mNodeName : string;
  isProxyObject : bool;
  getProxyWriteNode : ptr;
  getChildren : list ptr;
  getFields : list TamlCustomNodeField
}.

Record Heap : Type := {
  writeNodes : gmap ptr TamlWriteNode;
  customNodes : gmap ptr TamlCustomNode
}.

(** The writer object: [this]. *)
Record TamlBinaryWriter : Type := { mVersionId : Z }.

(** [StringTable->insert] interns a string and hands the same characters
    back; [StringTable->EmptyString] is the empty string. *)
Definition StringTable_insert (str : string) : string := str.
Definition StringTable_EmptyString : string := EmptyString.

(** ** Concrete streams *)

(** The recording stream: it accepts every write and keeps the data in
    order. It serves as the reference for what an encoder writes. *)
Definition Trace : Type := list Datum.
Global Instance Trace_stream : Stream Trace := λ d t, (true, t ++ [d]).

(** What reaches the file: a datum as it is, or a block that the
    compression adapter produced from the data it was given. *)
Inductive Chunk : Type :=
  | Plain (d : Datum)
  | Deflated (ds : list Datum).

Inductive StreamStatus : Type := StreamOk | IOError | Closed.

Global Instance StreamStatus_eq_dec : EqDecision StreamStatus.
Proof. solve_decision. Defined.

(** Modelled from the spec: the class [FileStream] (io/fileStream.h is
    outside the file verified here), the "underlying stream" whose I/O failure
    the spec names as "disk full, closed sink". [freeSpace] counts the
    chunks the device still takes; a write on a full device fails and
    leaves the stream in error, a write on a stream that is not in order
    fails and changes nothing. *)
Record FileStream : Type := {
  contents : list Chunk;
  freeSpace : nat;
  status : StreamStatus
}.

Definition FileStream_write (c : Chunk) (fs : FileStream) : bool * FileStream :=
  match status fs with
  | StreamOk =>
      match freeSpace fs with
      | O => (false, {| contents := contents fs; freeSpace := O; status := IOError |})
      | Datatypes.S n =>
          (true, {| contents := contents fs ++ [c]; freeSpace := n; status := StreamOk |})
      end
  | _ => (false, fs)
  end.

Global Instance FileStream_stream : Stream FileStream :=
  λ d fs, FileStream_write (Plain d) fs.

(** Modelled from the spec: the class [ZipSubWStream] (io/zip/zipSubStream.h
    is outside the file verified here), the Compression Adapter: "a stream
    decorator offering the same write capability, transparently deflating
    bytes before they reach the underlying sink", with attach(sink) and
    detach(). While attached it owns the sink; it collects what it is given
    and [detachStream] finalizes: the deflated block goes to the sink. *)
Record ZipSubWStream : Type := {
  mStream : FileStream;
  mDeflateBuffer : list Datum
}.

Definition attachStream (stream : FileStream) : ZipSubWStream :=
  {| mStream := stream; mDeflateBuffer := [] |}.

Definition detachStream (zipStream : ZipSubWStream) : FileStream :=
  (FileStream_write (Deflated (mDeflateBuffer zipStream)) (mStream zipStream)).2.

Global Instance ZipSubWStream_stream : Stream ZipSubWStream :=
  λ d z, (true, {| mStream := mStream z; mDeflateBuffer := mDeflateBuffer z ++ [d] |}).

(** ** The encoders *)

(** Modelled from the spec: the macros [TAML_SIGNATURE] and
    [MAX_TAML_NODE_FIELDVALUE_LENGTH] (persistence/taml/tamlCommon.h and
    tamlCustom.h are outside the file verified here): "a format signature
    string" and "the larger custom-field maximum". Their values are left
    open: every statement below holds for all of them. *)
Class TamlMacros : Type := {
  TAML_SIGNATURE : string;
  MAX_TAML_NODE_FIELDVALUE_LENGTH : Z
}.

Section Encoders.
Context {macros : TamlMacros}.

Section OverStream.
Context {S : Type} `{!Stream S}.

(** [TamlBinaryWriter::writeAttributes]. *)
Definition writeAttributes (h : Heap) (pTamlWriteNode : ptr) : Enc S unit :=
  node ← deref (writeNodes h) pTamlWriteNode;
  let fields := mFields node in
  _ ← write_U32 (U32_of_size (length fields));
  if Nat.eqb (length fields) 0 then mret tt
  else
    forEach (λ pFieldValue,
               _ ← writeString (mName pFieldValue);
               _ ← writeLongString 4096 (mpValue pFieldValue);
               mret tt)
            fields.

(** The body of [TamlBinaryWriter::writeChildren], over the encoder it
    calls for each child. *)
Definition writeChildrenWith (writeElement : ptr → Enc S unit)
    (h : Heap) (pTamlWriteNode : ptr) : Enc S unit :=
  node ← deref (writeNodes h) pTamlWriteNode;
  match mChildren node with
  | None => _ ← write_U32 0; mret tt
  | Some children =>
      _ ← write_U32 (U32_of_size (length children));
      forEach writeElement children
  end.

(** The body of [TamlBinaryWriter::writeCustomElements], over the
    encoder it calls for each custom node. *)
Definition writeCustomElementsWith (writeCustomNode : ptr → Enc S unit)
    (h : Heap) (pTamlWriteNode : ptr) : Enc S unit :=
  node ← deref (writeNodes h) pTamlWriteNode;
  let customNodes := mCustomNodes node in
  let nodes := getNodes customNodes in
  _ ← write_U32 (U32_of_size (length nodes));
  if Nat.eqb (length nodes) 0 then mret tt
  else forEach writeCustomNode nodes.

(** [TamlBinaryWriter::writeElement] and
    [TamlBinaryWriter::writeCustomNode]. Each nested call runs with one
    unit of [fuel] less: [fuel] bounds the depth of the calls. *)
Fixpoint writeElement (fuel : nat) (h : Heap) (pTamlWriteNode : ptr)
    {struct fuel} : Enc S unit :=
  match fuel with
  | O => outOfFuel
  | Datatypes.S fuel' =>
      node ← deref (writeNodes h) pTamlWriteNode;
      let pSimObject := mpSimObject node in
      let pElementName := getClassName pSimObject in
      _ ← writeString pElementName;
      let pObjectName := mpObjectName node in
      _ ← writeString (match pObjectName with
                       | Some name => name
                       | None => StringTable_EmptyString
                       end);
      let tamlRefId := mRefId node in
      _ ← write_U32 tamlRefId;
      match mRefToNode node with
      | Some pRefToNode =>
          target ← deref (writeNodes h) pRefToNode;
          let tamlRefToId := mRefId target in
          _ ← AssertFatal (negb (tamlRefToId =? 0)%Z)
                "Taml: Invalid reference to Id.";
          _ ← write_U32 tamlRefToId;
          mret tt
      | None =>
          _ ← write_S32 0;
          _ ← writeAttributes h pTamlWriteNode;
          _ ← writeChildrenWith (writeElement fuel' h) h pTamlWriteNode;
          writeCustomElementsWith (writeCustomNode fuel' h) h pTamlWriteNode
      end
  end
with writeCustomNode (fuel : nat) (h : Heap) (pCustomNode : ptr)
    {struct fuel} : Enc S unit :=
  match fuel with
  | O => outOfFuel
  | Datatypes.S fuel' =>
      node ← deref (customNodes h) pCustomNode;
      _ ← writeString (mNodeName node);
      if isProxyObject node then
        _ ← write_bool true;
        writeElement fuel' h (getProxyWriteNode node)
      else
        _ ← write_bool false;
        let nodeChildren := getChildren node in
        let customNodeCount := U32_of_size (length nodeChildren) in
        _ ← write_U32 customNodeCount;
        _ ← (if (0 <? customNodeCount)%Z
             then forEach (writeCustomNode fuel' h) nodeChildren
             else mret tt);
        let nodeFields := getFields node in
        let nodeFieldCount := U32_of_size (length nodeFields) in
        _ ← write_U32 nodeFieldCount;
        if (0 <? nodeFieldCount)%Z then
          forEach (λ pNodeField,
                     _ ← writeString (getFieldName pNodeField);
                     _ ← writeLongString MAX_TAML_NODE_FIELDVALUE_LENGTH
                           (getFieldValue pNodeField);
                     mret tt)
                  nodeFields
        else mret tt
  end.

(** [TamlBinaryWriter::writeChildren] and
    [TamlBinaryWriter::writeCustomElements], called with the depth that
    is left. *)
Definition writeChildren (fuel : nat) (h : Heap) (pTamlWriteNode : ptr)
    : Enc S unit :=
  writeChildrenWith (writeElement fuel h) h pTamlWriteNode.

Definition writeCustomElements (fuel : nat) (h : Heap)
    (pTamlWriteNode : ptr) : Enc S unit :=
  writeCustomElementsWith (writeCustomNode fuel h) h pTamlWriteNode.
End OverStream.

(** [TamlBinaryWriter::write]. The zip stream lives in the scope of the
    compressed branch; when [AssertFatal] stops the process inside it, the
    file is left as it was when the adapter was attached. *)
Definition write (this : TamlBinaryWriter) (fuel : nat) (h : Heap)
    (pTamlWriteNode : ptr) (compressed : bool) : Enc FileStream bool :=
  _ ← writeString (StringTable_insert TAML_SIGNATURE);
  _ ← write_U32 (mVersionId this);
  _ ← write_bool compressed;
  if compressed then
    (λ stream,
       let zipStream := attachStream stream in
       match writeElement fuel h pTamlWriteNode zipStream with
       | Returned _ zipStream' => Returned true (detachStream zipStream')
       | AssertFailed msg zipStream' => AssertFailed msg (mStream zipStream')
       | InvalidPointer => InvalidPointer
       | OutOfFuel => OutOfFuel
       end) : Enc FileStream bool
  else
    _ ← writeElement fuel h pTamlWriteNode;
    mret true.
End Encoders.

(** ** The vocabulary of the statements *)

(** The outcome on the recording stream, carried over to a stream [s]:
    the recorded write calls are made on [s]. *)
Definition replay {S : Type} `{!Stream S} {A : Type}
    (o : Outcome A Trace) (s : S) : Outcome A S :=
  match o with
  | Returned a t => Returned a (emit t s)
  | AssertFailed msg t => AssertFailed msg (emit t s)
  | InvalidPointer => InvalidPointer
  | OutOfFuel => OutOfFuel
  end.

(** [e] on a stream of type [S] and [t] on the recording stream make the
    same calls and end the same way, from every starting state. *)
Definition mirrors {S : Type} `{!Stream S} {A : Type}
    (e : Enc S A) (t : Enc Trace A) : Prop :=
  (∀ s, e s = replay (t []) s) ∧ (∀ t0, t t0 = replay (t []) t0).

(** The data of the wire grammar's productions, for stating what the
    encoders write. *)

(** [(Name:str Value:str≤4096)*]: the fields of an element. *)
Definition wire_AttributeFields (fields : list FieldValuePair) : list Datum :=
  flat_map (λ f, [DString (mName f); DLongString 4096 (mpValue f)]) fields.

(** [(Name:str Value:str≤MAXLEN)*]: the fields of a custom node. *)
Definition wire_CustomFields {macros : TamlMacros} (fields : list TamlCustomNodeField)
    : list Datum :=
  flat_map (λ f, [DString (getFieldName f);
                  DLongString MAX_TAML_NODE_FIELDVALUE_LENGTH (getFieldValue f)])
           fields.

(** [TypeName:str InstanceName:str Id:u32]: the header of an element; an
    absent instance name is the empty string. *)
Definition wire_ElementHeader (node : TamlWriteNode) : list Datum :=
  [DString (getClassName (mpSimObject node));
   DString (default EmptyString (mpObjectName node));
   DU32 (mRefId node)].

(** The given write calls, made in order, as an encoder. *)
Definition putAll {S : Type} `{!Stream S} (ds : list Datum) : Enc S unit :=
  λ s, Returned tt (emit ds s).

(** A vector as the code can hold it: its size fits the 32-bit count. *)
Definition fits_U32 {T} (v : list T) : Prop := (Z.of_nat (length v) < 2 ^ 32)%Z.

Inductive OutcomeKind : Type :=
  KReturned | KAssertFailed | KInvalidPointer | KOutOfFuel.

Definition kind {A S : Type} (o : Outcome A S) : OutcomeKind :=
  match o with
  | Returned _ _ => KReturned
  | AssertFailed _ _ => KAssertFailed
  | InvalidPointer => KInvalidPointer
  | OutOfFuel => KOutOfFuel
  end.

(** [e] never ends the way [bad] says, from any stream state. *)
Definition avoids {S A : Type} (bad : OutcomeKind) (e : Enc S A) : Prop :=
  ∀ s, kind (e s) ≠ bad.

(** [e'] ends as [e] does wherever [e] has enough depth left. *)
Definition extends {S A : Type} (e e' : Enc S A) : Prop :=
  ∀ s, kind (e s) ≠ KOutOfFuel → e' s = e s.

(** The ownership structure is well founded: a rank goes down along every
    edge the encoders follow. These are the children and the custom nodes
    of a node that is not an alias, the node a proxy custom node wraps and
    the children of a custom node that is not a proxy. The reference target
    of a node is no such edge. *)
Definition descends (h : Heap) (rankN rankC : ptr → nat) : Prop :=
  map_Forall (λ p node,
      mRefToNode node = None →
      Forall (λ q, rankN q < rankN p) (default [] (mChildren node)) ∧
      Forall (λ c, rankC c < rankN p) (getNodes (mCustomNodes node)))
    (writeNodes h)
  ∧ map_Forall (λ c node,
      (isProxyObject node = true → rankN (getProxyWriteNode node) < rankC c) ∧
      (isProxyObject node = false →
       Forall (λ c', rankC c' < rankC c) (getChildren node)))
    (customNodes h).

(** The target of the node's reference, if it is set and valid, has its
    id assigned. *)
Definition target_assigned (h : Heap) (node : TamlWriteNode) : bool :=
  match mRefToNode node with
  | Some q =>
      match writeNodes h !! q with
      | Some target => negb (mRefId target =? 0)%Z
      | None => true
      end
  | None => true
  end.

(** The invariant of the object model: every node that a reference
    targets has a nonzero id. *)
Definition references_assigned (h : Heap) : Prop :=
  map_Forall (λ _ node, target_assigned h node = true) (writeNodes h).

(** What the spec asks of [write] on an I/O failure: when the stream is
    left in error, the result is not success. *)
Definition reports_io_failure {macros : TamlMacros} (this : TamlBinaryWriter)
    (fuel : nat) (h : Heap) (p : ptr) (compressed : bool) (stream : FileStream)
    : Prop :=
  ∀ (result : bool) (stream' : FileStream),
    write this fuel h p compressed stream = Returned result stream' →
    status stream' ≠ StreamOk →
    result = false.

(** ** The tree that an address denotes *)

(** The wire grammar's [Element] and [CustomNode] as trees: what is left of
    a node once the addresses are followed. An alias keeps the id of its
    target and nothing else of it; an absent children container and an
    empty one are the same empty list; an absent instance name is the
    empty string. *)
#[local] Unset Elimination Schemes.
Inductive Element : Type :=
  | EAlias (typeName instanceName : string) (id backrefId : Z)
  | ENode (typeName instanceName : string) (id : Z)
      (attributes : list FieldValuePair)
      (children : list Element)
      (customs : list CustomNode)
with CustomNode : Type :=
  | CProxy (name : string) (element : Element)
  | CPlain (name : string) (children : list CustomNode)
      (fields : list TamlCustomNodeField).

#[local] Set Elimination Schemes.

(** The tree at an address, by the path the encoders take; [None] where
    an encoder does not return (an invalid address, a target without id,
    no depth left). *)
Fixpoint reifyElement (fuel : nat) (h : Heap) (p : ptr) {struct fuel}
    : option Element :=
  match fuel with
  | O => None
  | Datatypes.S fuel' =>
      node ← writeNodes h !! p;
      match mRefToNode node with
      | Some q =>
          target ← writeNodes h !! q;
          if (mRefId target =? 0)%Z then None
          else Some (EAlias (getClassName (mpSimObject node))
                            (default EmptyString (mpObjectName node))
                            (mRefId node) (mRefId target))
      | None =>
          children ← mapM (reifyElement fuel' h) (default [] (mChildren node));
          customs ← mapM (reifyCustomNode fuel' h) (getNodes (mCustomNodes node));
          Some (ENode (getClassName (mpSimObject node))
                      (default EmptyString (mpObjectName node))
                      (mRefId node) (mFields node) children customs)
      end
  end
with reifyCustomNode (fuel : nat) (h : Heap) (c : ptr) {struct fuel}
    : option CustomNode :=
  match fuel with
  | O => None
  | Datatypes.S fuel' =>
      node ← customNodes h !! c;
      if isProxyObject node then
        element ← reifyElement fuel' h (getProxyWriteNode node);
        Some (CProxy (mNodeName node) element)
      else
        children ← mapM (reifyCustomNode fuel' h) (getChildren node);
        Some (CPlain (mNodeName node) children (getFields node))
  end.

(** The data of a tree, production by production of the wire grammar. *)
Fixpoint wire_Element {macros : TamlMacros} (e : Element) : list Datum :=
  match e with
  | EAlias typeName instanceName id backrefId =>
      [DString typeName; DString instanceName; DU32 id; DU32 backrefId]
  | ENode typeName instanceName id attributes children customs =>
      [DString typeName; DString instanceName; DU32 id; DS32 0]
      ++ (DU32 (U32_of_size (length attributes)) :: wire_AttributeFields attributes)
      ++ (DU32 (U32_of_size (length children)) :: flat_map wire_Element children)
      ++ (DU32 (U32_of_size (length customs)) :: flat_map wire_CustomNode customs)
  end
with wire_CustomNode {macros : TamlMacros} (c : CustomNode) : list Datum :=
  match c with
  | CProxy name element => [DString name; DBool true] ++ wire_Element element
  | CPlain name children fields =>
      [DString name; DBool false]
      ++ (DU32 (U32_of_size (length children)) :: flat_map wire_CustomNode children)
      ++ (DU32 (U32_of_size (length fields)) :: wire_CustomFields fields)
  end.

(** The characters that a write bounded to [maxStringLen] keeps. *)
Definition truncate (maxStringLen : Z) (str : string) : string :=
  String.substring 0 (Z.to_nat maxStringLen) str.

(** A datum as the bytes on the wire can tell it at most: a signed and an
    unsigned 32-bit write of the same residue put the same four bytes, and
    of a bounded string write neither the bound nor the characters beyond
    it reach the wire. *)
Definition onWire (d : Datum) : Datum :=
  match d with
  | DS32 v => DU32 (v mod 2 ^ 32)%Z
  | DLongString maxStringLen str => DString (truncate maxStringLen str)
  | _ => d
  end.

(** A tree that the encoders can have written: the backreference id of an
    alias is not 0 and every sequence fits its 32-bit count. *)
#[local] Unset Elimination Schemes.
Inductive wf_Element : Element → Prop :=
  | wf_EAlias typeName instanceName id backrefId :
      backrefId ≠ 0%Z →
      wf_Element (EAlias typeName instanceName id backrefId)
  | wf_ENode typeName instanceName id attributes children customs :
      fits_U32 attributes → fits_U32 children → fits_U32 customs →
      Forall wf_Element children →
      Forall wf_CustomNode customs →
      wf_Element (ENode typeName instanceName id attributes children customs)
with wf_CustomNode : CustomNode → Prop :=
  | wf_CProxy name element :
      wf_Element element → wf_CustomNode (CProxy name element)
  | wf_CPlain name children fields :
      fits_U32 children → fits_U32 fields →
      Forall wf_CustomNode children →
      wf_CustomNode (CPlain name children fields).

#[local] Set Elimination Schemes.

(** Every vector of the heap fits its 32-bit count. *)
Definition heap_fits (h : Heap) : Prop :=
  map_Forall (λ _ node,
      fits_U32 (mFields node)
      ∧ fits_U32 (default [] (mChildren node))
      ∧ fits_U32 (getNodes (mCustomNodes node)))
    (writeNodes h)
  ∧ map_Forall (λ _ node,
      fits_U32 (getChildren node) ∧ fits_U32 (getFields node))
    (customNodes h).

(** Every address that the encoders follow from a node, or from a custom
    node, is an address of the heap. *)
Definition node_closed (h : Heap) (node : TamlWriteNode) : Prop :=
  match mRefToNode node with
  | Some q => is_Some (writeNodes h !! q)
  | None =>
      Forall (λ q, is_Some (writeNodes h !! q)) (default [] (mChildren node))
      ∧ Forall (λ c, is_Some (customNodes h !! c)) (getNodes (mCustomNodes node))
  end.

Definition custom_closed (h : Heap) (node : TamlCustomNode) : Prop :=
  if isProxyObject node
  then is_Some (writeNodes h !! getProxyWriteNode node)
  else Forall (λ c, is_Some (customNodes h !! c)) (getChildren node).

Definition closed (h : Heap) : Prop :=
  map_Forall (λ _ node, node_closed h node) (writeNodes h)
  ∧ map_Forall (λ _ node, custom_closed h node) (customNodes h).

Global Instance fits_U32_dec {T} (v : list T) : Decision (fits_U32 v).
Proof. unfold fits_U32. apply _. Defined.

Global Instance node_closed_dec (h : Heap) (node : TamlWriteNode) :
  Decision (node_closed h node).
Proof. unfold node_closed. destruct (mRefToNode node); apply _. Defined.

Global Instance custom_closed_dec (h : Heap) (node : TamlCustomNode) :
  Decision (custom_closed h node).
Proof. unfold custom_closed. destruct (isProxyObject node); apply _. Defined.

(** An address of a node or of a custom node. *)
Inductive Addr : Type :=
  | ANode (p : ptr)
  | ACustom (c : ptr).

(** The edges that the encoders follow: from a node that is not an alias
    to its children and to its custom nodes, from a proxy custom node to
    the node it wraps, from another custom node to its children (when
    their number fits the count that guards the loop). *)
Inductive follows (h : Heap) : Addr → Addr → Prop :=
  | follows_child p node q :
      writeNodes h !! p = Some node →
      mRefToNode node = None →
      q ∈ default [] (mChildren node) →
      follows h (ANode p) (ANode q)
  | follows_custom p node c :
      writeNodes h !! p = Some node →
      mRefToNode node = None →
      c ∈ getNodes (mCustomNodes node) →
      follows h (ANode p) (ACustom c)
  | follows_proxy c node :
      customNodes h !! c = Some node →
      isProxyObject node = true →
      follows h (ACustom c) (ANode (getProxyWriteNode node))
  | follows_nested c node c' :
      customNodes h !! c = Some node →
      isProxyObject node = false →
      fits_U32 (getChildren node) →
      c' ∈ getChildren node →
      follows h (ACustom c) (ACustom c').

(** The encoder of an address. *)
Definition encodeAt {macros : TamlMacros} {S : Type} `{!Stream S}
    (fuel : nat) (h : Heap) (a : Addr) : Enc S unit :=
  match a with
  | ANode p => writeElement fuel h p
  | ACustom c => writeCustomNode fuel h c
  end.

(** ** The bytes of a write *)

(** Two write calls of the same kind. The wire grammar has data of the same
    kind at the same place: two strings, two strings bounded alike, two
    32-bit integers, two booleans. *)
Definition same_class (d1 d2 : Datum) : bool :=
  match d1, d2 with
  | DString _, DString _ => true
  | DLongString m1 _, DLongString m2 _ => (m1 =? m2)%Z
  | (DU32 _ | DS32 _), (DU32 _ | DS32 _) => true
  | DBool _, DBool _ => true
  | _, _ => false
  end.

(** Two write calls of the same kind that tell the same: the same call,
    or an unsigned and a signed 32-bit write of the same residue. *)
Definition wire_equal (d1 d2 : Datum) : Prop :=
  match d1, d2 with
  | DU32 v, DS32 w => v = (w mod 2 ^ 32)%Z
  | DS32 v, DU32 w => w = (v mod 2 ^ 32)%Z
  | _, _ => d1 = d2
  end.

(** Modelled from the spec: the byte format of the typed writes of
    [Stream] (io/stream.h is outside the file verified here). It is taken
    as a parameter: [bytes d] are the bytes that the write [d] puts, and
    [lossless d] says that the stream writes [d] in full (a string within
    its bound, an integer within its width). The format is decodable when,
    among writes of one kind that are written in full, the bytes tell the
    write and where it ends: "length-prefixed" strings and "fixed-width"
    integers. Nothing is asked of a write that is not written in full. *)
Definition decodable {B : Type} (bytes : Datum → list B)
    (lossless : Datum → Prop) : Prop :=
  ∀ (d1 d2 : Datum) (r1 r2 : list B),
    same_class d1 d2 = true →
    lossless d1 → lossless d2 →
    bytes d1 ++ r1 = bytes d2 ++ r2 →
    wire_equal d1 d2 ∧ r1 = r2.

(** A format of this kind, with bytes as integers below 256: a 32-bit
    integer is its four bytes, low byte first; a boolean is one byte; a
    string is its length as a 32-bit integer and then its characters, a
    bounded string after it is cut to its bound. *)
Definition le32 (v : Z) : list Z :=
  [v mod 256; (v / 256) mod 256; (v / 65536) mod 256; (v / 16777216) mod 256]%Z.

Definition chars (str : string) : list Z :=
  map (λ a, Z.of_N (Ascii.N_of_ascii a)) (String.list_ascii_of_string str).

Definition sampleBytes (d : Datum) : list Z :=
  match d with
  | DString str => le32 (Z.of_nat (String.length str)) ++ chars str
  | DLongString maxStringLen str =>
      le32 (Z.of_nat (String.length (truncate maxStringLen str)))
      ++ chars (truncate maxStringLen str)
  | DU32 v => le32 (v mod 2 ^ 32)
  | DS32 v => le32 (v mod 2 ^ 32)
  | DBool v => [if v then 1 else 0]%Z
  end.

Definition sampleLossless (d : Datum) : Prop :=
  match d with
  | DString str => (Z.of_nat (String.length str) < 2 ^ 32)%Z
  | DLongString maxStringLen str =>
      (Z.of_nat (String.length str) ≤ maxStringLen)%Z
      ∧ (maxStringLen < 2 ^ 32)%Z
  | DU32 v => (0 ≤ v < 2 ^ 32)%Z
  | DS32 v => (- 2 ^ 31 ≤ v < 2 ^ 31)%Z
  | DBool _ => True
  end.

Global Instance sampleLossless_dec (d : Datum) : Decision (sampleLossless d).
Proof. destruct d; simpl; apply _. Defined.

(** ** Sample inputs *)

Definition sampleMacros : TamlMacros :=
  {| TAML_SIGNATURE := "Taml"; MAX_TAML_NODE_FIELDVALUE_LENGTH := 8192 |}.

Definition sampleWriter : TamlBinaryWriter := {| mVersionId := 2 |}.

(** A scene with a field, two children and a custom node. *)
Definition sampleScene : TamlWriteNode :=
  {| mpSimObject := {| getClassName := "Scene" |};
     mpObjectName := Some "level";
     mRefId := 1;
     mRefToNode := None;
     mFields := [ {| mName := "Gravity"; mpValue := "0 -9.8" |} ];
     mChildren := Some [2%positive; 3%positive];
     mCustomNodes := {| getNodes := [1%positive] |} |}.

(** A leaf without a name and without a children container. *)
Definition sampleSprite : TamlWriteNode :=
  {| mpSimObject := {| getClassName := "Sprite" |};
     mpObjectName := None;
     mRefId := 2;
     mRefToNode := None;
     mFields := [];
     mChildren := None;
     mCustomNodes := {| getNodes := [] |} |}.

(** An alias of the sprite. What it holds besides the reference leads back
    to the scene; the encoder does not look at it. *)
Definition sampleAlias : TamlWriteNode :=
  {| mpSimObject := {| getClassName := "Sprite" |};
     mpObjectName := None;
     mRefId := 3;
     mRefToNode := Some 2%positive;
     mFields := [ {| mName := "Frame"; mpValue := "7" |} ];
     mChildren := Some [1%positive];
     mCustomNodes := {| getNodes := [1%positive] |} |}.

(** A leaf with an empty children container, wrapped by a proxy. *)
Definition sampleAsset : TamlWriteNode :=
  {| mpSimObject := {| getClassName := "ImageAsset" |};
     mpObjectName := Some "tiles";
     mRefId := 4;
     mRefToNode := None;
     mFields := [];
     mChildren := Some [];
     mCustomNodes := {| getNodes := [] |} |}.

Definition sampleLayers : TamlCustomNode :=
  {| mNodeName := "Layers";
     isProxyObject := false;
     getProxyWriteNode := 5%positive;
     getChildren := [2%positive];
     getFields := [ {| getFieldName := "Depth"; getFieldValue := "3" |} ] |}.

Definition sampleProxy : TamlCustomNode :=
  {| mNodeName := "Asset";
     isProxyObject := true;
     getProxyWriteNode := 4%positive;
     getChildren := [];
     getFields := [] |}.

Definition sampleHeap : Heap :=
  {| writeNodes := {[ 1%positive := sampleScene; 2%positive := sampleSprite;
                      3%positive := sampleAlias; 4%positive := sampleAsset ]};
     customNodes := {[ 1%positive := sampleLayers; 2%positive := sampleProxy ]} |}.

Definition sampleRankN (p : ptr) : nat :=
  match p with 1%positive => 3 | _ => 0 end.
Definition sampleRankC (c : ptr) : nat :=
  match c with 1%positive => 2 | 2%positive => 1 | _ => 0 end.

(** A heap that breaks the invariant: the target of the reference has no
    id. *)
Definition unassignedTarget : TamlWriteNode :=
  {| mpSimObject := {| getClassName := "Sprite" |};
     mpObjectName := None;
     mRefId := 0;
     mRefToNode := None;
     mFields := [];
     mChildren := None;
     mCustomNodes := {| getNodes := [] |} |}.

Definition brokenHeap : Heap :=
  {| writeNodes := {[ 2%positive := unassignedTarget; 3%positive := sampleAlias ]};
     customNodes := ∅ |}.

(** A node that is its own child. *)
Definition selfChild : TamlWriteNode :=
  {| mpSimObject := {| getClassName := "Loop" |};
     mpObjectName := None;
     mRefId := 1;
     mRefToNode := None;
     mFields := [];
     mChildren := Some [1%positive];
     mCustomNodes := {| getNodes := [] |} |}.

Definition cyclicHeap : Heap :=
  {| writeNodes := {[ 1%positive := selfChild ]}; customNodes := ∅ |}.

(** A file on a device with room for [room] chunks. *)
Definition newFile (room : nat) : FileStream :=
  {| contents := []; freeSpace := room; status := StreamOk |}.

(** A file that has been closed. *)
Definition closedFile : FileStream :=
  {| contents := []; freeSpace := 100; status := Closed |}.

(** The tree of the sample scene. *)
Definition sampleTree : Element :=
  ENode "Scene" "level" 1
    [ {| mName := "Gravity"; mpValue := "0 -9.8" |} ]
    [ ENode "Sprite" "" 2 [] [] []; EAlias "Sprite" "" 3 2 ]
    [ CPlain "Layers"
        [ CProxy "Asset" (ENode "ImageAsset" "tiles" 4 [] [] []) ]
        [ {| getFieldName := "Depth"; getFieldValue := "3" |} ] ].

(** Another heap with the same scene at other addresses, the sprite with
    an empty children container in place of none and with an empty
    instance name in place of none. *)
Definition otherHeap : Heap :=
  {| writeNodes :=
       {[ 11%positive :=
            {| mpSimObject := {| getClassName := "Scene" |};
               mpObjectName := Some "level";
               mRefId := 1;
               mRefToNode := None;
               mFields := [ {| mName := "Gravity"; mpValue := "0 -9.8" |} ];
               mChildren := Some [12%positive; 13%positive];
               mCustomNodes := {| getNodes := [11%positive] |} |};
          12%positive :=
            {| mpSimObject := {| getClassName := "Sprite" |};
               mpObjectName := Some "";
               mRefId := 2;
               mRefToNode := None;
               mFields := [];
               mChildren := Some [];
               mCustomNodes := {| getNodes := [] |} |};
          13%positive :=
            {| mpSimObject := {| getClassName := "Sprite" |};
               mpObjectName := None;
               mRefId := 3;
               mRefToNode := Some 12%positive;
               mFields := [];
               mChildren := None;
               mCustomNodes := {| getNodes := [] |} |};
          14%positive := sampleAsset ]};
     customNodes :=
       {[ 11%positive :=
            {| mNodeName := "Layers";
               isProxyObject := false;
               getProxyWriteNode := 1%positive;
               getChildren := [12%positive];
               getFields := [ {| getFieldName := "Depth"; getFieldValue := "3" |} ] |};
          12%positive :=
            {| mNodeName := "Asset";
               isProxyObject := true;
               getProxyWriteNode := 14%positive;
               getChildren := [];
               getFields := [] |} ]} |}.

(** ** Streams *)

Section StreamLemmas.
Context {S : Type} `{!Stream S}.

Lemma emit_nil (s : S) : emit [] s = s.
Proof. reflexivity. Qed.

Lemma emit_cons (d : Datum) (ds : list Datum) (s : S) :
  emit (d :: ds) s = emit ds (emit [d] s).
Proof. reflexivity. Qed.

Lemma emit_app (ds1 ds2 : list Datum) (s : S) :
  emit (ds1 ++ ds2) s = emit ds2 (emit ds1 s).
Proof. unfold emit. apply fold_left_app. Qed.

Lemma put_bind {A} (d : Datum) (k : bool → Enc S A) (s : S) :
  (put d ≫= k) s = k (_write d s).1 (emit [d] s).
Proof.
  unfold mbind, Enc_bind, put, emit. simpl. by destruct (_write d s).
Qed.
End StreamLemmas.

Lemma emit_Trace (ds : list Datum) (t : Trace) : emit ds t = t ++ ds.
Proof.
  revert t. induction ds as [|d ds IH]; intros t.
  - by rewrite emit_nil, app_nil_r.
  - rewrite emit_cons, IH. unfold emit; simpl. unfold _write, Trace_stream.
    simpl. by rewrite <- app_assoc.
Qed.

Lemma replay_replay {S : Type} `{!Stream S} {A} (o : Outcome A Trace)
    (t : Trace) (s : S) :
  replay (replay o t) s = replay o (emit t s).
Proof.
  destruct o; simpl; try done; by rewrite emit_Trace, emit_app.
Qed.

(** ** The encoders are independent of the stream *)

Section Mirrors.
Context {S : Type} `{!Stream S}.

Lemma mirrors_at {A} (e : Enc S A) (t : Enc Trace A) :
  mirrors e t →
  (∀ t0 s, e (emit t0 s) = replay (t t0) s) ∧
  (∀ t1 t0, t (emit t1 t0) = replay (t t1) t0).
Proof.
  intros [He Ht]. split.
  - intros t0 s. by rewrite He, (Ht t0), replay_replay.
  - intros t1 t0. by rewrite Ht, (Ht t1), replay_replay.
Qed.

Lemma mirrors_ret {A} (a : A) : mirrors (mret a) (mret a).
Proof. split; intros; simpl; unfold mret, Enc_ret; simpl; by rewrite ?emit_Trace. Qed.

Lemma mirrors_outOfFuel {A} : mirrors (outOfFuel (A:=A)) outOfFuel.
Proof. by split. Qed.

Lemma mirrors_bind {A B} (e : Enc S A) (t : Enc Trace A)
    (k : A → Enc S B) (kt : A → Enc Trace B) :
  mirrors e t → (∀ a, mirrors (k a) (kt a)) → mirrors (e ≫= k) (t ≫= kt).
Proof.
  intros [He Ht] Hk. unfold mbind, Enc_bind. split.
  - intros s. rewrite He. destruct (t []) as [a t1| | |]; simpl; try done.
    apply (mirrors_at _ _ (Hk a)).
  - intros t0. rewrite Ht. destruct (t []) as [a t1| | |]; simpl; try done.
    apply (mirrors_at _ _ (Hk a)).
Qed.

Lemma mirrors_put {A} (d : Datum) (k : bool → Enc S A) (kt : bool → Enc Trace A) :
  (∀ b b', mirrors (k b) (kt b')) → mirrors (put d ≫= k) (put d ≫= kt).
Proof.
  intros Hk. split.
  - intros s. rewrite !put_bind. apply (mirrors_at _ _ (Hk _ _)).
  - intros t0. rewrite !put_bind. simpl.
    destruct (mirrors_at _ _ (Hk true true)) as [_ Ht]. apply (Ht [d] t0).
Qed.

Lemma mirrors_deref {T A} (m : gmap positive T) (p : positive)
    (k : T → Enc S A) (kt : T → Enc Trace A) :
  (∀ x, mirrors (k x) (kt x)) → mirrors (deref m p ≫= k) (deref m p ≫= kt).
Proof.
  intros Hk. unfold mbind, Enc_bind, deref.
  destruct (m !! p) as [x|]; [apply Hk | by split].
Qed.

Lemma mirrors_assert {A} (cond : bool) (msg : string)
    (k : unit → Enc S A) (kt : unit → Enc Trace A) :
  mirrors (k tt) (kt tt) →
  mirrors (AssertFatal cond msg ≫= k) (AssertFatal cond msg ≫= kt).
Proof.
  intros Hk. unfold mbind, Enc_bind, AssertFatal.
  destruct cond; [apply Hk|].
  split; intros; simpl; by rewrite ?emit_Trace.
Qed.

Lemma mirrors_forEach {T} (body : T → Enc S unit) (bodyt : T → Enc Trace unit)
    (v : list T) :
  (∀ x, mirrors (body x) (bodyt x)) → mirrors (forEach body v) (forEach bodyt v).
Proof.
  intros Hb. induction v as [|x v IH]; simpl.
  - apply mirrors_ret.
  - apply mirrors_bind; [apply Hb | intros _; apply IH].
Qed.
End Mirrors.

Ltac mirror_step :=
  first
    [ apply mirrors_ret
    | apply mirrors_outOfFuel
    | apply mirrors_deref; intros ?
    | apply mirrors_put; intros ? ?
    | apply mirrors_assert
    | apply mirrors_forEach; intros ?
    | match goal with
      | |- mirrors (if ?c then _ else _) _ => destruct c
      | |- mirrors (match ?x with Some _ => _ | None => _ end) _ => destruct x
      end ].

Ltac mirror :=
  unfold writeString, writeLongString, write_U32, write_S32, write_bool;
  repeat mirror_step.

Section EncodersMirror.
Context {macros : TamlMacros} {S : Type} `{!Stream S}.

Lemma writeAttributes_mirrors (h : Heap) (p : ptr) :
  mirrors (S:=S) (writeAttributes h p) (writeAttributes h p).
Proof. unfold writeAttributes. mirror. Qed.

Lemma writeChildrenWith_mirrors (we : ptr → Enc S unit)
    (wt : ptr → Enc Trace unit) (h : Heap) (p : ptr) :
  (∀ q, mirrors (we q) (wt q)) →
  mirrors (writeChildrenWith we h p) (writeChildrenWith wt h p).
Proof. intros Hw. unfold writeChildrenWith. mirror. apply Hw. Qed.

Lemma writeCustomElementsWith_mirrors (wc : ptr → Enc S unit)
    (wt : ptr → Enc Trace unit) (h : Heap) (p : ptr) :
  (∀ q, mirrors (wc q) (wt q)) →
  mirrors (writeCustomElementsWith wc h p) (writeCustomElementsWith wt h p).
Proof. intros Hw. unfold writeCustomElementsWith. mirror. apply Hw. Qed.

Lemma encoders_mirror (fuel : nat) :
  (∀ h p, mirrors (S:=S) (writeElement fuel h p) (writeElement fuel h p)) ∧
  (∀ h c, mirrors (S:=S) (writeCustomNode fuel h c) (writeCustomNode fuel h c)).
Proof.
  induction fuel as [|fuel [IHe IHc]]; split; intros h p; simpl.
  - mirror.
  - mirror.
  - mirror. apply mirrors_bind; [apply writeAttributes_mirrors | intros _].
    apply mirrors_bind;
      [apply writeChildrenWith_mirrors, IHe | intros _].
    apply writeCustomElementsWith_mirrors, IHc.
  - mirror.
    + apply IHe.
    + apply mirrors_bind; [|intros _; mirror].
      mirror. apply IHc.
Qed.

(** Stream independence: on any stream, an encoder makes the write calls
    that it makes on the recording stream, and ends the same way. *)
Lemma writeElement_replay (fuel : nat) (h : Heap) (p : ptr) (s : S) :
  writeElement fuel h p s = replay (writeElement fuel h p ([] : Trace)) s.
Proof. apply (encoders_mirror fuel). Qed.

Lemma writeCustomNode_replay (fuel : nat) (h : Heap) (c : ptr) (s : S) :
  writeCustomNode fuel h c s = replay (writeCustomNode fuel h c ([] : Trace)) s.
Proof. apply (encoders_mirror fuel). Qed.
End EncodersMirror.

(** ** What the encoders write *)

Section Layout.
Context {macros : TamlMacros} {S : Type} `{!Stream S}.

Lemma U32_of_size_fits {T} (v : list T) :
  fits_U32 v → U32_of_size (length v) = Z.of_nat (length v).
Proof. unfold fits_U32, U32_of_size. intros Hv. apply Z.mod_small. lia. Qed.

Lemma U32_of_size_pos {T} (v : list T) :
  fits_U32 v → v ≠ [] → (0 <? U32_of_size (length v))%Z = true.
Proof.
  intros Hv Hne. rewrite U32_of_size_fits by done.
  destruct v; [done|]. simpl length. apply Z.ltb_lt. lia.
Qed.

Lemma bind_Returned {A B} (e : Enc S A) (k : A → Enc S B) (s s' : S) (a : A) :
  e s = Returned a s' → (e ≫= k) s = k a s'.
Proof. unfold mbind, Enc_bind. by intros ->. Qed.

Lemma bind_ext {A B} (e e' : Enc S A) (k k' : A → Enc S B) (s : S) :
  (∀ s0, e s0 = e' s0) → (∀ a s0, k a s0 = k' a s0) →
  (e ≫= k) s = (e' ≫= k') s.
Proof.
  intros He Hk. unfold mbind, Enc_bind. rewrite He.
  destruct (e' s); done.
Qed.

Lemma writeString_bind {A} (str : string) (k : bool → Enc S A) (s : S) :
  (writeString str ≫= k) s = k (_write (DString str) s).1 (emit [DString str] s).
Proof. apply put_bind. Qed.

Lemma write_U32_bind {A} (v : Z) (k : bool → Enc S A) (s : S) :
  (write_U32 v ≫= k) s = k (_write (DU32 v) s).1 (emit [DU32 v] s).
Proof. apply put_bind. Qed.

Lemma write_bool_bind {A} (v : bool) (k : bool → Enc S A) (s : S) :
  (write_bool v ≫= k) s = k (_write (DBool v) s).1 (emit [DBool v] s).
Proof. apply put_bind. Qed.

(** A loop whose body returns on every item returns, having made the
    calls of the bodies in the order of the items. *)
Lemma forEach_concat {T} (body : T → Enc S unit) (v : list T)
    (ts : list (list Datum)) (s : S) :
  Forall2 (λ x t, ∀ s, body x s = Returned tt (emit t s)) v ts →
  forEach body v s = Returned tt (emit (concat ts) s).
Proof.
  intros Hv. revert s. induction Hv as [|x t v ts Hx _ IH]; intros s; simpl.
  - done.
  - rewrite (bind_Returned _ _ _ _ _ (Hx s)), IH. by rewrite emit_app.
Qed.

Lemma forEach_AttributeFields (fields : list FieldValuePair) (s : S) :
  forEach (λ pFieldValue,
             _ ← writeString (mName pFieldValue);
             _ ← writeLongString 4096 (mpValue pFieldValue);
             mret tt) fields s
  = Returned tt (emit (wire_AttributeFields fields) s).
Proof.
  revert s. induction fields as [|f fields IH]; intros s; simpl; [done|].
  unfold writeString, writeLongString.
  erewrite bind_Returned; [apply IH|]. by rewrite !put_bind.
Qed.

Lemma forEach_CustomFields (fields : list TamlCustomNodeField) (s : S) :
  forEach (λ pNodeField,
             _ ← writeString (getFieldName pNodeField);
             _ ← writeLongString MAX_TAML_NODE_FIELDVALUE_LENGTH
                   (getFieldValue pNodeField);
             mret tt) fields s
  = Returned tt (emit (wire_CustomFields fields) s).
Proof.
  revert s. induction fields as [|f fields IH]; intros s; simpl; [done|].
  unfold writeString, writeLongString.
  erewrite bind_Returned; [apply IH|]. by rewrite !put_bind.
Qed.

Lemma deref_bind {T A} (m : gmap positive T) (p : positive) (x : T)
    (k : T → Enc S A) (s : S) :
  m !! p = Some x → (deref m p ≫= k) s = k x s.
Proof. unfold mbind, Enc_bind, deref. by intros ->. Qed.

Lemma assert_bind {A} (cond : bool) (msg : string) (k : unit → Enc S A) (s : S) :
  (AssertFatal cond msg ≫= k) s = if cond then k tt s else AssertFailed msg s.
Proof. unfold mbind, Enc_bind, AssertFatal. by destruct cond. Qed.

Lemma writeAttributes_emit (h : Heap) (p : ptr) (node : TamlWriteNode) (s : S) :
  writeNodes h !! p = Some node →
  writeAttributes h p s
    = Returned tt (emit (DU32 (U32_of_size (length (mFields node)))
                         :: wire_AttributeFields (mFields node)) s).
Proof.
  intros Hp. unfold writeAttributes. rewrite (deref_bind _ _ _ _ _ Hp). cbv zeta.
  unfold write_U32. rewrite put_bind, (emit_cons (DU32 _)).
  destruct (mFields node) as [|f fields] eqn:Hf; [done|].
  change (length (f :: fields) =? 0) with false. cbv iota.
  apply forEach_AttributeFields.
Qed.

(** C5. The attribute encoder writes the number of fields as an unsigned
    32-bit count, then, field by field in array order, the name as a string
    and the value as a string bounded to 4096; with no field it writes the
    count 0 and nothing else. *)
Theorem writeAttributes_layout (h : Heap) (p : ptr) (node : TamlWriteNode) (s : S) :
  writeNodes h !! p = Some node →
  writeAttributes h p s
    = Returned tt (emit (DU32 (U32_of_size (length (mFields node)))
                         :: wire_AttributeFields (mFields node)) s)
  ∧ (fits_U32 (mFields node) →
     U32_of_size (length (mFields node)) = Z.of_nat (length (mFields node)))
  ∧ (mFields node = [] → writeAttributes h p s = Returned tt (emit [DU32 0] s)).
Proof.
  intros Hp. pose proof (writeAttributes_emit h p node s Hp) as Hw.
  split; [done|]. split; [apply U32_of_size_fits|].
  intros Hnil. rewrite Hw, Hnil. done.
Qed.
Lemma writeElement_Returned (fuel : nat) (h : Heap) (q : ptr) (t : Trace) (s : S) :
  writeElement fuel h q ([] : Trace) = Returned tt t →
  writeElement fuel h q s = Returned tt (emit t s).
Proof. intros Ht. by rewrite writeElement_replay, Ht. Qed.

Lemma writeCustomNode_Returned (fuel : nat) (h : Heap) (c : ptr) (t : Trace) (s : S) :
  writeCustomNode fuel h c ([] : Trace) = Returned tt t →
  writeCustomNode fuel h c s = Returned tt (emit t s).
Proof. intros Ht. by rewrite writeCustomNode_replay, Ht. Qed.

Lemma writeChildren_forEach (fuel : nat) (h : Heap) (p : ptr)
    (node : TamlWriteNode) (s : S) :
  writeNodes h !! p = Some node →
  writeChildren fuel h p s
    = forEach (writeElement fuel h) (default [] (mChildren node))
        (emit [DU32 (U32_of_size (length (default [] (mChildren node))))] s).
Proof.
  intros Hp. unfold writeChildren, writeChildrenWith.
  rewrite (deref_bind _ _ _ _ _ Hp).
  destruct (mChildren node) as [children|]; unfold write_U32;
    by rewrite put_bind.
Qed.

(** C6. The children encoder writes the child count and then the element
    encoding of each child in array order; with the container absent and
    with the container empty it writes the same: the single count 0. *)
Theorem writeChildren_layout (fuel : nat) (h : Heap) (p : ptr)
    (node : TamlWriteNode) (s : S) :
  writeNodes h !! p = Some node →
  let children := default [] (mChildren node) in
  writeChildren fuel h p s
    = forEach (writeElement fuel h) children
        (emit [DU32 (U32_of_size (length children))] s)
  ∧ (∀ ts : list (list Datum),
       Forall2 (λ q t, writeElement fuel h q ([] : Trace) = Returned tt t)
               children ts →
       writeChildren fuel h p s
         = Returned tt (emit (DU32 (U32_of_size (length children)) :: concat ts) s))
  ∧ (mChildren node = None ∨ mChildren node = Some [] →
     writeChildren fuel h p s = Returned tt (emit [DU32 0] s)).
Proof.
  intros Hp children.
  pose proof (writeChildren_forEach fuel h p node s Hp) as Hw.
  fold children in Hw. split; [done|]. split.
  - intros ts Hts. rewrite Hw, (emit_cons (DU32 _)).
    apply forEach_concat. eapply Forall2_impl; [exact Hts|].
    intros q t Hq s'. by apply writeElement_Returned.
  - intros Hempty. rewrite Hw.
    assert (children = []) as -> by (subst children; by destruct Hempty as [-> | ->]).
    done.
Qed.

Lemma writeElement_alias (fuel : nat) (h : Heap) (p q : ptr)
    (node target : TamlWriteNode) (s : S) :
  writeNodes h !! p = Some node →
  mRefToNode node = Some q →
  writeNodes h !! q = Some target →
  mRefId target ≠ 0%Z →
  writeElement (Datatypes.S fuel) h p s
    = Returned tt (emit (wire_ElementHeader node ++ [DU32 (mRefId target)]) s).
Proof.
  intros Hp Href Hq Hid. simpl.
  rewrite (deref_bind _ _ _ _ _ Hp). cbv zeta.
  unfold writeString, write_U32. rewrite !put_bind, Href.
  rewrite (deref_bind _ _ _ _ _ Hq).
  apply Z.eqb_neq in Hid. rewrite assert_bind, Hid. simpl negb. cbv iota.
  rewrite put_bind. by destruct (mpObjectName node).
Qed.

(** C1. For a node whose reference target is set, the element encoder
    writes the header (type name, instance name with the empty string for
    an absent one, the node's id), then the id of the target, and stops:
    nothing of the attributes, the children or the custom nodes follows. *)
Theorem writeElement_reference (fuel : nat) (h : Heap) (p q : ptr)
    (node target : TamlWriteNode) (s : S) :
  writeNodes h !! p = Some node →
  mRefToNode node = Some q →
  writeNodes h !! q = Some target →
  mRefId target ≠ 0%Z →
  writeElement (Datatypes.S fuel) h p s
    = Returned tt (emit [DString (getClassName (mpSimObject node));
                         DString (default EmptyString (mpObjectName node));
                         DU32 (mRefId node);
                         DU32 (mRefId target)] s).
Proof.
  intros Hp Href Hq Hid. simpl.
  rewrite (deref_bind _ _ _ _ _ Hp). cbv zeta.
  rewrite !writeString_bind, write_U32_bind, Href.
  rewrite (deref_bind _ _ _ _ _ Hq), assert_bind.
  apply Z.eqb_neq in Hid. rewrite Hid. simpl negb. cbv iota.
  rewrite write_U32_bind. by destruct (mpObjectName node).
Qed.

(** The header and the "no backreference" marker of a node that is not an
    alias, then the three encoders in their order. *)
Lemma writeElement_unfold_body (fuel : nat) (h : Heap) (p : ptr)
    (node : TamlWriteNode) (s : S) :
  writeNodes h !! p = Some node →
  mRefToNode node = None →
  writeElement (Datatypes.S fuel) h p s
    = (_ ← writeAttributes h p;
       _ ← writeChildren fuel h p;
       writeCustomElements fuel h p)
        (emit (wire_ElementHeader node ++ [DS32 0]) s).
Proof.
  intros Hp Href. simpl.
  rewrite (deref_bind _ _ _ _ _ Hp). cbv zeta.
  unfold writeString, write_U32, write_S32. rewrite !put_bind, Href.
  rewrite put_bind. by destruct (mpObjectName node).
Qed.
Lemma writeChildren_Returned (fuel : nat) (h : Heap) (p : ptr) (t : Trace) (s : S) :
  writeChildren fuel h p ([] : Trace) = Returned tt t →
  writeChildren fuel h p s = Returned tt (emit t s).
Proof.
  intros Ht. unfold writeChildren in *.
  destruct (writeChildrenWith_mirrors (S:=S) (writeElement fuel h)
              (writeElement fuel h) h p) as [Hm _].
  { apply encoders_mirror. }
  by rewrite Hm, Ht.
Qed.

Lemma writeCustomElements_Returned (fuel : nat) (h : Heap) (p : ptr)
    (t : Trace) (s : S) :
  writeCustomElements fuel h p ([] : Trace) = Returned tt t →
  writeCustomElements fuel h p s = Returned tt (emit t s).
Proof.
  intros Ht. unfold writeCustomElements in *.
  destruct (writeCustomElementsWith_mirrors (S:=S) (writeCustomNode fuel h)
              (writeCustomNode fuel h) h p) as [Hm _].
  { apply encoders_mirror. }
  by rewrite Hm, Ht.
Qed.

Lemma writeCustomElements_layout (fuel : nat) (h : Heap) (p : ptr)
    (node : TamlWriteNode) (s : S) :
  writeNodes h !! p = Some node →
  writeCustomElements fuel h p s
    = forEach (writeCustomNode fuel h) (getNodes (mCustomNodes node))
        (emit [DU32 (U32_of_size (length (getNodes (mCustomNodes node))))] s).
Proof.
  intros Hp. unfold writeCustomElements, writeCustomElementsWith.
  rewrite (deref_bind _ _ _ _ _ Hp). cbv zeta. unfold write_U32.
  rewrite put_bind. by destruct (getNodes (mCustomNodes node)).
Qed.

(** C2. For a node whose reference target is not set, the element encoder
    writes the header with the node's id, then the literal 0 for "no
    backreference", and then runs the attribute encoder, the children
    encoder and the custom-node encoder, in this order and nothing else. *)
Theorem writeElement_body (fuel : nat) (h : Heap) (p : ptr)
    (node : TamlWriteNode) (s : S) :
  writeNodes h !! p = Some node →
  mRefToNode node = None →
  writeElement (Datatypes.S fuel) h p s
    = (_ ← writeAttributes h p;
       _ ← writeChildren fuel h p;
       writeCustomElements fuel h p)
        (emit (wire_ElementHeader node ++ [DS32 0]) s)
  ∧ (∀ A C K : list Datum,
       writeAttributes h p ([] : Trace) = Returned tt A →
       writeChildren fuel h p ([] : Trace) = Returned tt C →
       writeCustomElements fuel h p ([] : Trace) = Returned tt K →
       writeElement (Datatypes.S fuel) h p s
         = Returned tt (emit (wire_ElementHeader node ++ [DS32 0] ++ A ++ C ++ K) s)).
Proof.
  intros Hp Href. split; [by apply writeElement_unfold_body|].
  intros A C K HA HC HK. rewrite (writeElement_unfold_body _ _ _ _ _ Hp Href).
  destruct (writeAttributes_mirrors (S:=S) h p) as [Hm _].
  erewrite bind_Returned; [|by rewrite Hm, HA].
  erewrite bind_Returned; [|by apply writeChildren_Returned].
  rewrite (writeCustomElements_Returned _ _ _ _ _ HK).
  by rewrite <- !emit_app, <- !app_assoc.
Qed.

(** C9. A node with no reference target, no fields, no children (the
    container absent or empty) and no custom nodes: after its header and
    the 0 marker come three unsigned 32-bit zero counts and nothing else. *)
Theorem writeElement_empty (fuel : nat) (h : Heap) (p : ptr)
    (node : TamlWriteNode) (s : S) :
  writeNodes h !! p = Some node →
  mRefToNode node = None →
  mFields node = [] →
  mChildren node = None ∨ mChildren node = Some [] →
  getNodes (mCustomNodes node) = [] →
  writeElement (Datatypes.S fuel) h p s
    = Returned tt (emit ((wire_ElementHeader node ++ [DS32 0])
                         ++ [DU32 0; DU32 0; DU32 0]) s).
Proof.
  intros Hp Href Hf Hc Hn.
  rewrite (writeElement_unfold_body _ _ _ _ _ Hp Href).
  erewrite bind_Returned; [|by apply writeAttributes_emit].
  erewrite bind_Returned.
  2: { rewrite (writeChildren_forEach _ _ _ _ _ Hp).
       assert (default [] (mChildren node) = []) as ->
         by (by destruct Hc as [-> | ->]).
       done. }
  rewrite (writeCustomElements_layout _ _ _ _ _ Hp), Hn, Hf. simpl forEach.
  by rewrite (emit_app _ [DU32 0; DU32 0; DU32 0]).
Qed.
Lemma guarded_forEach {T} (body : T → Enc S unit) (v : list T) (s : S) :
  fits_U32 v →
  (if (0 <? U32_of_size (length v))%Z then forEach body v else mret tt) s
    = forEach body v s.
Proof.
  intros Hv. destruct v as [|x v]; [done|].
  by rewrite U32_of_size_pos.
Qed.

Lemma writeCustomNode_proxy (fuel : nat) (h : Heap) (c : ptr)
    (node : TamlCustomNode) (s : S) :
  customNodes h !! c = Some node →
  isProxyObject node = true →
  writeCustomNode (Datatypes.S fuel) h c s
    = writeElement fuel h (getProxyWriteNode node)
        (emit [DString (mNodeName node); DBool true] s).
Proof.
  intros Hc Hproxy. simpl. rewrite (deref_bind _ _ _ _ _ Hc).
  unfold writeString. rewrite put_bind, Hproxy. unfold write_bool.
  by rewrite put_bind.
Qed.

Lemma writeCustomNode_plain (fuel : nat) (h : Heap) (c : ptr)
    (node : TamlCustomNode) (s : S) :
  customNodes h !! c = Some node →
  isProxyObject node = false →
  fits_U32 (getChildren node) →
  fits_U32 (getFields node) →
  writeCustomNode (Datatypes.S fuel) h c s
    = (_ ← forEach (writeCustomNode fuel h) (getChildren node);
       putAll (DU32 (Z.of_nat (length (getFields node)))
               :: wire_CustomFields (getFields node)))
        (emit [DString (mNodeName node); DBool false;
               DU32 (Z.of_nat (length (getChildren node)))] s).
Proof.
  intros Hc Hproxy Hch Hf. simpl. rewrite (deref_bind _ _ _ _ _ Hc).
  rewrite writeString_bind, Hproxy, write_bool_bind. cbv zeta.
  rewrite write_U32_bind, (U32_of_size_fits _ Hch).
  apply bind_ext.
  - intros s0. rewrite <- (U32_of_size_fits _ Hch). by apply guarded_forEach.
  - intros [] s0. rewrite write_U32_bind, guarded_forEach by done.
    rewrite forEach_CustomFields, (U32_of_size_fits _ Hf). done.
Qed.
(** C4. The custom-node encoder writes the node name and the proxy flag.
    For a proxy it then encodes the wrapped node with the element encoder
    and returns: no child count and no field count is written. Otherwise
    it writes the count of the child custom nodes, encodes each of them in
    order, then writes the field count and, field by field in order, the
    name and the value bounded to the custom-field maximum. *)
Theorem writeCustomNode_layout (fuel : nat) (h : Heap) (c : ptr)
    (node : TamlCustomNode) (s : S) :
  customNodes h !! c = Some node →
  (isProxyObject node = true →
     writeCustomNode (Datatypes.S fuel) h c s
       = writeElement fuel h (getProxyWriteNode node)
           (emit [DString (mNodeName node); DBool true] s)
     ∧ (∀ E : list Datum,
          writeElement fuel h (getProxyWriteNode node) ([] : Trace) = Returned tt E →
          writeCustomNode (Datatypes.S fuel) h c s
            = Returned tt (emit ([DString (mNodeName node); DBool true] ++ E) s)))
  ∧ (isProxyObject node = false →
     fits_U32 (getChildren node) →
     fits_U32 (getFields node) →
     writeCustomNode (Datatypes.S fuel) h c s
       = (_ ← forEach (writeCustomNode fuel h) (getChildren node);
          putAll (DU32 (Z.of_nat (length (getFields node)))
                  :: wire_CustomFields (getFields node)))
           (emit [DString (mNodeName node); DBool false;
                  DU32 (Z.of_nat (length (getChildren node)))] s)
     ∧ (∀ ts : list (list Datum),
          Forall2 (λ c' t, writeCustomNode fuel h c' ([] : Trace) = Returned tt t)
                  (getChildren node) ts →
          writeCustomNode (Datatypes.S fuel) h c s
            = Returned tt
                (emit ([DString (mNodeName node); DBool false;
                        DU32 (Z.of_nat (length (getChildren node)))]
                       ++ concat ts
                       ++ DU32 (Z.of_nat (length (getFields node)))
                          :: wire_CustomFields (getFields node)) s))).
Proof.
  intros Hc. split.
  - intros Hproxy. rewrite (writeCustomNode_proxy _ _ _ _ _ Hc Hproxy).
    split; [done|]. intros E HE.
    by rewrite (writeElement_Returned _ _ _ _ _ HE), emit_app.
  - intros Hproxy Hch Hf.
    rewrite (writeCustomNode_plain _ _ _ _ _ Hc Hproxy Hch Hf).
    split; [done|]. intros ts Hts.
    erewrite bind_Returned.
    2: { apply forEach_concat. eapply Forall2_impl; [exact Hts|].
         intros c' t Hc' s'. by apply writeCustomNode_Returned. }
    unfold putAll. by rewrite !emit_app.
Qed.

(** The assertion of [writeElement]: with the target's id 0 the process
    stops after the header; the id 0 is not written. *)
Lemma writeElement_unassigned (fuel : nat) (h : Heap) (p q : ptr)
    (node target : TamlWriteNode) (s : S) :
  writeNodes h !! p = Some node →
  mRefToNode node = Some q →
  writeNodes h !! q = Some target →
  mRefId target = 0%Z →
  writeElement (Datatypes.S fuel) h p s
    = AssertFailed "Taml: Invalid reference to Id."
        (emit (wire_ElementHeader node) s).
Proof.
  intros Hp Href Hq Hid. simpl.
  rewrite (deref_bind _ _ _ _ _ Hp). cbv zeta.
  rewrite !writeString_bind, write_U32_bind, Href.
  rewrite (deref_bind _ _ _ _ _ Hq), assert_bind, Hid. simpl.
  by destruct (mpObjectName node).
Qed.
End Layout.

(** ** How the encoders end *)

Section Avoids.
Context {S : Type} `{!Stream S}.
Variable bad : OutcomeKind.
Hypothesis bad_Returned : bad ≠ KReturned.

Lemma avoids_ret {A} (a : A) : avoids (S:=S) bad (mret a).
Proof. by intros s. Qed.

Lemma avoids_put (d : Datum) : avoids (S:=S) bad (put d).
Proof. intros s. unfold put. by destruct (_write d s). Qed.

Lemma avoids_bind {A B} (e : Enc S A) (k : A → Enc S B) :
  avoids bad e → (∀ a, avoids bad (k a)) → avoids bad (e ≫= k).
Proof.
  intros He Hk s. specialize (He s). unfold mbind, Enc_bind.
  destruct (e s); try done. apply Hk.
Qed.

Lemma avoids_put_bind {A} (d : Datum) (k : bool → Enc S A) :
  (∀ b, avoids bad (k b)) → avoids bad (put d ≫= k).
Proof. intros Hk. apply avoids_bind; [apply avoids_put | done]. Qed.

Lemma avoids_deref_bind {T A} (m : gmap positive T) (p : positive)
    (k : T → Enc S A) :
  bad ≠ KInvalidPointer →
  (∀ x, m !! p = Some x → avoids bad (k x)) →
  avoids bad (deref m p ≫= k).
Proof.
  intros Hinv Hk s. unfold mbind, Enc_bind, deref.
  destruct (m !! p) as [x|]; [by apply Hk | done].
Qed.

Lemma avoids_assert_bind {A} (cond : bool) (msg : string) (k : unit → Enc S A) :
  (cond = false → bad ≠ KAssertFailed) →
  avoids bad (k tt) →
  avoids bad (AssertFatal cond msg ≫= k).
Proof.
  intros Hc Hk s. rewrite assert_bind.
  destruct cond; [apply Hk | simpl; intros Heq; by apply Hc].
Qed.

Lemma avoids_forEach {T} (body : T → Enc S unit) (v : list T) :
  Forall (λ x, avoids bad (body x)) v → avoids bad (forEach body v).
Proof.
  induction 1 as [|x v Hx _ IH]; simpl.
  - apply avoids_ret.
  - apply avoids_bind; [done | by intros _].
Qed.
End Avoids.

Section Extends.
Context {S : Type} `{!Stream S}.

Lemma extends_refl {A} (e : Enc S A) : extends e e.
Proof. by intros s _. Qed.

Lemma extends_bind {A B} (e e' : Enc S A) (k k' : A → Enc S B) :
  extends e e' → (∀ a, extends (k a) (k' a)) → extends (e ≫= k) (e' ≫= k').
Proof.
  intros He Hk s. unfold mbind, Enc_bind. specialize (He s).
  destruct (e s) as [a s'| | |] eqn:Hes; simpl; intros Hne.
  - rewrite He by done. by apply Hk.
  - by rewrite He.
  - by rewrite He.
  - done.
Qed.

Lemma extends_forEach {T} (body body' : T → Enc S unit) (v : list T) :
  (∀ x, extends (body x) (body' x)) → extends (forEach body v) (forEach body' v).
Proof.
  intros Hb. induction v as [|x v IH]; simpl.
  - apply extends_refl.
  - apply extends_bind; [apply Hb | by intros _].
Qed.
End Extends.

Ltac extend_step :=
  first
    [ apply extends_refl
    | apply extends_forEach; intros ?
    | apply extends_bind; [apply extends_refl | intros ?]
    | match goal with
      | |- extends (if ?c then _ else _) _ => destruct c
      | |- extends (match ?x with Some _ => _ | None => _ end) _ => destruct x
      end ].

Section Depth.
Context {macros : TamlMacros} {S : Type} `{!Stream S}.

Lemma writeChildrenWith_extends (w w' : ptr → Enc S unit) (h : Heap) (p : ptr) :
  (∀ q, extends (w q) (w' q)) →
  extends (writeChildrenWith w h p) (writeChildrenWith w' h p).
Proof. intros Hw. unfold writeChildrenWith. repeat extend_step. apply Hw. Qed.

Lemma writeCustomElementsWith_extends (w w' : ptr → Enc S unit) (h : Heap)
    (p : ptr) :
  (∀ q, extends (w q) (w' q)) →
  extends (writeCustomElementsWith w h p) (writeCustomElementsWith w' h p).
Proof. intros Hw. unfold writeCustomElementsWith. repeat extend_step. apply Hw. Qed.

(** More depth changes nothing once the depth is enough. *)
Lemma encoders_extend (fuel : nat) :
  ∀ fuel', fuel ≤ fuel' →
    (∀ h p, extends (S:=S) (writeElement fuel h p) (writeElement fuel' h p)) ∧
    (∀ h c, extends (S:=S) (writeCustomNode fuel h c) (writeCustomNode fuel' h c)).
Proof.
  induction fuel as [|fuel IH]; intros fuel' Hle.
  { split; intros h p s Hs; by simpl in Hs. }
  destruct fuel' as [|fuel']; [lia|].
  destruct (IH fuel' ltac:(lia)) as [IHe IHc].
  split; intros h p; simpl.
  - repeat extend_step.
    apply extends_bind; [by apply writeChildrenWith_extends | intros _].
    by apply writeCustomElementsWith_extends.
  - repeat extend_step.
    + apply IHe.
    + apply extends_bind; [|intros _; apply extends_refl].
      repeat extend_step. apply IHc.
Qed.

Lemma writeAttributes_avoids (bad : OutcomeKind) (h : Heap) (p : ptr) :
  bad ≠ KReturned → bad ≠ KInvalidPointer →
  avoids (S:=S) bad (writeAttributes h p).
Proof.
  intros Hret Hinv. unfold writeAttributes.
  apply avoids_deref_bind; [done|]. intros node _. cbv zeta.
  apply avoids_put_bind; [done|]. intros _.
  destruct (length (mFields node) =? 0); [by apply avoids_ret|].
  apply avoids_forEach; [done|]. apply Forall_forall. intros f _.
  repeat (apply avoids_put_bind; [done|]; intros _). by apply avoids_ret.
Qed.

Lemma forEach_CustomFields_avoids (bad : OutcomeKind)
    (fields : list TamlCustomNodeField) :
  bad ≠ KReturned →
  avoids (S:=S) bad
    (forEach (λ pNodeField,
                _ ← writeString (getFieldName pNodeField);
                _ ← writeLongString MAX_TAML_NODE_FIELDVALUE_LENGTH
                      (getFieldValue pNodeField);
                mret tt) fields).
Proof.
  intros Hret. apply avoids_forEach; [done|]. apply Forall_forall. intros f _.
  repeat (apply avoids_put_bind; [done|]; intros _). by apply avoids_ret.
Qed.

Lemma writeChildrenWith_avoids (bad : OutcomeKind) (w : ptr → Enc S unit)
    (h : Heap) (p : ptr) :
  bad ≠ KReturned → bad ≠ KInvalidPointer →
  (∀ node, writeNodes h !! p = Some node →
           Forall (λ q, avoids bad (w q)) (default [] (mChildren node))) →
  avoids bad (writeChildrenWith w h p).
Proof.
  intros Hret Hinv Hw. unfold writeChildrenWith.
  apply avoids_deref_bind; [done|]. intros node Hp. specialize (Hw node Hp).
  destruct (mChildren node) as [children|]; simpl in Hw.
  - apply avoids_put_bind; [done|]. intros _. by apply avoids_forEach.
  - apply avoids_put_bind; [done|]. intros _. by apply avoids_ret.
Qed.

Lemma writeCustomElementsWith_avoids (bad : OutcomeKind) (w : ptr → Enc S unit)
    (h : Heap) (p : ptr) :
  bad ≠ KReturned → bad ≠ KInvalidPointer →
  (∀ node, writeNodes h !! p = Some node →
           Forall (λ c, avoids bad (w c)) (getNodes (mCustomNodes node))) →
  avoids bad (writeCustomElementsWith w h p).
Proof.
  intros Hret Hinv Hw. unfold writeCustomElementsWith.
  apply avoids_deref_bind; [done|]. intros node Hp. specialize (Hw node Hp).
  cbv zeta. apply avoids_put_bind; [done|]. intros _.
  destruct (length _ =? 0); [by apply avoids_ret | by apply avoids_forEach].
Qed.
Lemma encoders_finish (h : Heap) (rankN rankC : ptr → nat) :
  descends h rankN rankC →
  ∀ fuel,
    (∀ p, rankN p < fuel → avoids (S:=S) KOutOfFuel (writeElement fuel h p)) ∧
    (∀ c, rankC c < fuel → avoids (S:=S) KOutOfFuel (writeCustomNode fuel h c)).
Proof.
  intros [HN HC] fuel.
  induction fuel as [|fuel [IHe IHc]]; [split; intros; lia|].
  split.
  - intros p Hrank. simpl.
    apply avoids_deref_bind; [done|]. intros node Hp. cbv zeta.
    do 3 (apply avoids_put_bind; [done|]; intros _).
    destruct (mRefToNode node) as [q|] eqn:Href.
    + apply avoids_deref_bind; [done|]. intros target _. cbv zeta.
      apply avoids_assert_bind; [done|].
      apply avoids_put_bind; [done|]. intros _. by apply avoids_ret.
    + destruct (HN p node Hp Href) as [Hch Hcu].
      apply avoids_put_bind; [done|]. intros _.
      apply avoids_bind; [by apply writeAttributes_avoids | intros _].
      apply avoids_bind; [|intros _].
      * apply writeChildrenWith_avoids; [done..|].
        intros node' Hp'.
        pose proof (eq_trans (eq_sym Hp) Hp') as Heq. injection Heq as <-.
        eapply Forall_impl; [exact Hch|]. intros q Hq. apply IHe. simpl in Hq. lia.
      * apply writeCustomElementsWith_avoids; [done..|].
        intros node' Hp'.
        pose proof (eq_trans (eq_sym Hp) Hp') as Heq. injection Heq as <-.
        eapply Forall_impl; [exact Hcu|]. intros c Hc. apply IHc. simpl in Hc. lia.
  - intros c Hrank. simpl.
    apply avoids_deref_bind; [done|]. intros node Hc.
    destruct (HC c node Hc) as [Hproxy Hplain].
    apply avoids_put_bind; [done|]. intros _.
    destruct (isProxyObject node).
    + apply avoids_put_bind; [done|]. intros _.
      apply IHe. specialize (Hproxy eq_refl). lia.
    + specialize (Hplain eq_refl).
      do 2 (apply avoids_put_bind; [done|]; intros _).
      apply avoids_bind; [|intros _].
      * destruct (0 <? _)%Z; [|by apply avoids_ret].
        apply avoids_forEach; [done|].
        eapply Forall_impl; [exact Hplain|]. intros c' Hc'. apply IHc.
        simpl in Hc'. lia.
      * apply avoids_put_bind; [done|]. intros _.
        destruct (0 <? _)%Z; [|by apply avoids_ret].
        by apply forEach_CustomFields_avoids.
Qed.

Lemma target_assigned_spec (h : Heap) (p q : ptr) (node target : TamlWriteNode) :
  references_assigned h →
  writeNodes h !! p = Some node →
  mRefToNode node = Some q →
  writeNodes h !! q = Some target →
  mRefId target ≠ 0%Z.
Proof.
  intros Hh Hp Href Hq. specialize (Hh p node Hp). simpl in Hh.
  unfold target_assigned in Hh. rewrite Href, Hq in Hh.
  apply negb_true_iff, Z.eqb_neq in Hh. done.
Qed.

Lemma encoders_never_assert (h : Heap) :
  references_assigned h →
  ∀ fuel,
    (∀ p, avoids (S:=S) KAssertFailed (writeElement fuel h p)) ∧
    (∀ c, avoids (S:=S) KAssertFailed (writeCustomNode fuel h c)).
Proof.
  intros Hh fuel.
  induction fuel as [|fuel [IHe IHc]]; [by split|].
  split.
  - intros p. simpl.
    apply avoids_deref_bind; [done|]. intros node Hp. cbv zeta.
    do 3 (apply avoids_put_bind; [done|]; intros _).
    destruct (mRefToNode node) as [q|] eqn:Href.
    + apply avoids_deref_bind; [done|]. intros target Hq. cbv zeta.
      apply avoids_assert_bind.
      { intros Hz. apply negb_false_iff, Z.eqb_eq in Hz.
        by destruct (target_assigned_spec h p q node target). }
      apply avoids_put_bind; [done|]. intros _. by apply avoids_ret.
    + apply avoids_put_bind; [done|]. intros _.
      apply avoids_bind; [by apply writeAttributes_avoids | intros _].
      apply avoids_bind; [|intros _].
      * apply writeChildrenWith_avoids; [done..|].
        intros node' _. apply Forall_forall. intros q _. apply IHe.
      * apply writeCustomElementsWith_avoids; [done..|].
        intros node' _. apply Forall_forall. intros c _. apply IHc.
  - intros c. simpl.
    apply avoids_deref_bind; [done|]. intros node Hc.
    apply avoids_put_bind; [done|]. intros _.
    destruct (isProxyObject node).
    + apply avoids_put_bind; [done|]. intros _. apply IHe.
    + do 2 (apply avoids_put_bind; [done|]; intros _).
      apply avoids_bind; [|intros _].
      * destruct (0 <? _)%Z; [|by apply avoids_ret].
        apply avoids_forEach; [done|].
        apply Forall_forall. intros c' _. apply IHc.
      * apply avoids_put_bind; [done|]. intros _.
        destruct (0 <? _)%Z; [|by apply avoids_ret].
        by apply forEach_CustomFields_avoids.
Qed.
End Depth.

Section Safety.
Context {macros : TamlMacros} {S : Type} `{!Stream S}.

Lemma kind_OutOfFuel {A} (o : Outcome A S) : kind o ≠ KOutOfFuel ↔ o ≠ OutOfFuel.
Proof. by destruct o. Qed.

Lemma kind_AssertFailed {A} (o : Outcome A S) :
  kind o ≠ KAssertFailed ↔ ∀ msg s, o ≠ AssertFailed msg s.
Proof.
  destruct o; simpl; split; try done.
  intros Ho. by destruct (Ho msg s).
Qed.

(** C8. With the reference target set and the target's id 0, the encoder
    stops at the assertion and does not write that 0: only the header has
    been written. When every referenced target has its nonzero id, the
    assertion never fails, in no nested call, and the backreference id
    written for an alias node is not 0. *)
Theorem reference_id_assertion (h : Heap) :
  (∀ (fuel : nat) (p q : ptr) (node target : TamlWriteNode) (s : S),
     writeNodes h !! p = Some node →
     mRefToNode node = Some q →
     writeNodes h !! q = Some target →
     mRefId target = 0%Z →
     writeElement (Datatypes.S fuel) h p s
       = AssertFailed "Taml: Invalid reference to Id."
           (emit (wire_ElementHeader node) s))
  ∧ (references_assigned h →
     (∀ (fuel : nat) (p : ptr) (s : S) (msg : string) (s' : S),
        writeElement fuel h p s ≠ AssertFailed msg s')
     ∧ (∀ (fuel : nat) (c : ptr) (s : S) (msg : string) (s' : S),
        writeCustomNode fuel h c s ≠ AssertFailed msg s')
     ∧ (∀ (fuel : nat) (p q : ptr) (node target : TamlWriteNode) (s : S),
          writeNodes h !! p = Some node →
          mRefToNode node = Some q →
          writeNodes h !! q = Some target →
          mRefId target ≠ 0%Z
          ∧ writeElement (Datatypes.S fuel) h p s
              = Returned tt
                  (emit (wire_ElementHeader node ++ [DU32 (mRefId target)]) s))).
Proof.
  split; [intros; by apply (writeElement_unassigned fuel h p q node target)|].
  intros Hh. split; [|split].
  - intros fuel p s. apply kind_AssertFailed.
    by apply (encoders_never_assert h Hh fuel).
  - intros fuel c s. apply kind_AssertFailed.
    by apply (encoders_never_assert h Hh fuel).
  - intros fuel p q node target s Hp Href Hq.
    pose proof (target_assigned_spec h p q node target Hh Hp Href Hq) as Hid.
    split; [done|]. by apply (writeElement_alias fuel h p q node target).
Qed.

(** C10. On a well-founded ownership structure the four mutually recursive
    encoders terminate: from a depth on that the ranks give, each ends in
    one and the same way, and not by running out of depth. The reference
    target of a node is not part of that structure: an alias node is
    encoded at depth one, whatever its target is and owns. *)
Theorem encoders_terminate (h : Heap) :
  (∀ (fuel : nat) (p q : ptr) (node : TamlWriteNode) (s : S),
     writeNodes h !! p = Some node →
     mRefToNode node = Some q →
     writeElement (Datatypes.S fuel) h p s = writeElement 1 h p s
     ∧ writeElement 1 h p s ≠ OutOfFuel)
  ∧ (∀ rankN rankC : ptr → nat,
       descends h rankN rankC →
       (∀ (p : ptr) (s : S),
          ∃ o, o ≠ OutOfFuel ∧
               ∀ fuel, rankN p < fuel → writeElement fuel h p s = o)
       ∧ (∀ (c : ptr) (s : S),
          ∃ o, o ≠ OutOfFuel ∧
               ∀ fuel, rankC c < fuel → writeCustomNode fuel h c s = o)
       ∧ (∀ (p : ptr) (node : TamlWriteNode) (s : S),
          writeNodes h !! p = Some node →
          mRefToNode node = None →
          (∃ o, o ≠ OutOfFuel ∧
                ∀ fuel, rankN p ≤ fuel → writeChildren fuel h p s = o)
          ∧ (∃ o, o ≠ OutOfFuel ∧
                  ∀ fuel, rankN p ≤ fuel → writeCustomElements fuel h p s = o))).
Proof.
  split.
  - intros fuel p q node s Hp Href.
    assert (kind (writeElement 1 h p s) ≠ KOutOfFuel) as Hk.
    { simpl. revert s. apply avoids_deref_bind; [done|]. intros node' Hp'.
      pose proof (eq_trans (eq_sym Hp) Hp') as Heq. injection Heq as <-.
      cbv zeta. do 3 (apply avoids_put_bind; [done|]; intros _).
      rewrite Href. apply avoids_deref_bind; [done|]. intros target _.
      cbv zeta. apply avoids_assert_bind; [done|].
      apply avoids_put_bind; [done|]. intros _. by apply avoids_ret. }
    split; [|by apply kind_OutOfFuel].
    by apply (encoders_extend 1 (Datatypes.S fuel) ltac:(lia)).
  - intros rankN rankC Hd. split; [|split].
    + intros p s. exists (writeElement (Datatypes.S (rankN p)) h p s).
      pose proof (encoders_finish h rankN rankC Hd (Datatypes.S (rankN p))) as [He _].
      specialize (He p ltac:(lia) s). split; [by apply kind_OutOfFuel|].
      intros fuel Hfuel.
      by apply (encoders_extend (Datatypes.S (rankN p)) fuel ltac:(lia)).
    + intros c s. exists (writeCustomNode (Datatypes.S (rankC c)) h c s).
      pose proof (encoders_finish h rankN rankC Hd (Datatypes.S (rankC c))) as [_ Hc].
      specialize (Hc c ltac:(lia) s). split; [by apply kind_OutOfFuel|].
      intros fuel Hfuel.
      by apply (encoders_extend (Datatypes.S (rankC c)) fuel ltac:(lia)).
    + intros p node s Hp Href.
      destruct Hd as [HN HC]. destruct (HN p node Hp Href) as [Hch Hcu].
      pose proof (encoders_finish h rankN rankC (conj HN HC) (rankN p)) as [He Hc].
      split.
      * exists (writeChildren (rankN p) h p s).
        assert (kind (writeChildren (rankN p) h p s) ≠ KOutOfFuel) as Hk.
        { apply writeChildrenWith_avoids; [done..|]. intros node' Hp'.
          pose proof (eq_trans (eq_sym Hp) Hp') as Heq. injection Heq as <-.
          eapply Forall_impl; [exact Hch|]. intros q Hq. by apply He. }
        split; [by apply kind_OutOfFuel|]. intros fuel Hfuel.
        apply writeChildrenWith_extends; [|done].
        by apply (encoders_extend (rankN p) fuel).
      * exists (writeCustomElements (rankN p) h p s).
        assert (kind (writeCustomElements (rankN p) h p s) ≠ KOutOfFuel) as Hk.
        { apply writeCustomElementsWith_avoids; [done..|]. intros node' Hp'.
          pose proof (eq_trans (eq_sym Hp) Hp') as Heq. injection Heq as <-.
          eapply Forall_impl; [exact Hcu|]. intros c Hc'. by apply Hc. }
        split; [by apply kind_OutOfFuel|]. intros fuel Hfuel.
        apply writeCustomElementsWith_extends; [|done].
        by apply (encoders_extend (rankN p) fuel).
Qed.
End Safety.

(** ** The document writer *)

Section Document.
Context {macros : TamlMacros}.

Lemma emit_ZipSubWStream (ds : list Datum) (z : ZipSubWStream) :
  emit ds z = {| mStream := mStream z; mDeflateBuffer := mDeflateBuffer z ++ ds |}.
Proof.
  revert z. induction ds as [|d ds IH]; intros z.
  - rewrite emit_nil, app_nil_r. by destruct z.
  - rewrite emit_cons, IH. unfold emit. simpl. by rewrite <- app_assoc.
Qed.

(** A stream in order with room for the data takes all of them. *)
Lemma emit_FileStream (ds : list Datum) (fs : FileStream) :
  status fs = StreamOk →
  length ds ≤ freeSpace fs →
  emit ds fs = {| contents := contents fs ++ map Plain ds;
                  freeSpace := freeSpace fs - length ds;
                  status := StreamOk |}.
Proof.
  revert fs. induction ds as [|d ds IH]; intros fs Hok Hroom.
  - rewrite emit_nil. simpl. rewrite app_nil_r, Nat.sub_0_r.
    destruct fs; simpl in *; by subst.
  - rewrite emit_cons. simpl in Hroom.
    assert (emit [d] fs = {| contents := contents fs ++ [Plain d];
                             freeSpace := freeSpace fs - 1;
                             status := StreamOk |}) as ->.
    { unfold emit. simpl. unfold _write, FileStream_stream, FileStream_write.
      rewrite Hok. destruct (freeSpace fs) as [|n]; [lia|].
      simpl. by rewrite Nat.sub_0_r. }
    rewrite IH; simpl; [|done|lia].
    rewrite <- app_assoc. simpl. f_equal. lia.
Qed.

(** What [write] does with the outcome of the root's encoding. *)
Lemma write_unfold (this : TamlBinaryWriter) (fuel : nat) (h : Heap) (p : ptr)
    (compressed : bool) (stream : FileStream) :
  let header := [DString TAML_SIGNATURE; DU32 (mVersionId this); DBool compressed] in
  write this fuel h p compressed stream
    = if compressed then
        match writeElement fuel h p (attachStream (emit header stream)) with
        | Returned _ z => Returned true (detachStream z)
        | AssertFailed msg z => AssertFailed msg (mStream z)
        | InvalidPointer => InvalidPointer
        | OutOfFuel => OutOfFuel
        end
      else
        match writeElement fuel h p (emit header stream) with
        | Returned _ stream' => Returned true stream'
        | AssertFailed msg stream' => AssertFailed msg stream'
        | InvalidPointer => InvalidPointer
        | OutOfFuel => OutOfFuel
        end.
Proof.
  intros header. unfold write.
  rewrite writeString_bind, write_U32_bind, write_bool_bind.
  by destruct compressed.
Qed.

(** C3. For either value of the compression flag, [write] first writes the
    signature string, the version and the flag to the raw stream. With the
    flag set it then attaches the compression adapter, encodes the root
    through it and detaches it before it returns; otherwise it encodes the
    root to the raw stream. *)
Theorem write_layout (this : TamlBinaryWriter) (fuel : nat) (h : Heap) (p : ptr)
    (compressed : bool) (stream : FileStream) (E : list Datum) :
  writeElement fuel h p ([] : Trace) = Returned tt E →
  let header := [DString TAML_SIGNATURE; DU32 (mVersionId this); DBool compressed] in
  write this fuel h p compressed stream
    = Returned true
        (if compressed
         then detachStream (emit E (attachStream (emit header stream)))
         else emit E (emit header stream))
  ∧ (status stream = StreamOk →
     length header + (if compressed then 1 else length E) ≤ freeSpace stream →
     ∃ stream',
       write this fuel h p compressed stream = Returned true stream'
       ∧ status stream' = StreamOk
       ∧ contents stream'
           = contents stream ++ map Plain header
             ++ (if compressed then [Deflated E] else map Plain E)).
Proof.
  intros HE header.
  assert (write this fuel h p compressed stream
    = Returned true
        (if compressed
         then detachStream (emit E (attachStream (emit header stream)))
         else emit E (emit header stream))) as Hw.
  { rewrite write_unfold. fold header.
    destruct compressed; by rewrite (writeElement_Returned _ _ _ _ _ HE). }
  split; [done|]. intros Hok Hroom. rewrite Hw. eexists. split; [done|].
  rewrite (emit_FileStream header stream Hok) by (simpl in *; lia).
  destruct compressed.
  - rewrite emit_ZipSubWStream. unfold detachStream, attachStream, FileStream_write.
    simpl. simpl in Hroom.
    destruct (freeSpace stream - 3) as [|n] eqn:Hn; [lia|].
    simpl. by rewrite <- app_assoc.
  - rewrite emit_FileStream; simpl; [|done|simpl in Hroom; lia].
    by rewrite <- app_assoc.
Qed.

Lemma FileStream_write_in_order (c : Chunk) (fs : FileStream) :
  status (FileStream_write c fs).2 = StreamOk →
  status fs = StreamOk
  ∧ contents (FileStream_write c fs).2 = contents fs ++ [c].
Proof.
  unfold FileStream_write.
  destruct (status fs) eqn:Hs; simpl; try (by rewrite Hs).
  by destruct (freeSpace fs).
Qed.

Lemma FileStream_write_failed (c : Chunk) (fs : FileStream) :
  status fs ≠ StreamOk → (FileStream_write c fs).2 = fs.
Proof. unfold FileStream_write. by destruct (status fs). Qed.

(** A file that is in order after the writes was in order before them and
    has taken every one of them. *)
Lemma emit_FileStream_in_order (ds : list Datum) (fs : FileStream) :
  status (emit ds fs) = StreamOk →
  status fs = StreamOk ∧ contents (emit ds fs) = contents fs ++ map Plain ds.
Proof.
  revert fs. induction ds as [|d ds IH]; intros fs.
  - rewrite emit_nil. simpl. by rewrite app_nil_r.
  - rewrite emit_cons. intros Hok. destruct (IH _ Hok) as [Hok1 Hc].
    destruct (FileStream_write_in_order (Plain d) fs Hok1) as [Hok0 Hc0].
    split; [done|]. rewrite Hc. unfold emit at 1. simpl fold_left.
    unfold _write, FileStream_stream. rewrite Hc0. by rewrite <- app_assoc.
Qed.

(** A file that is not in order takes nothing. *)
Lemma emit_FileStream_failed (ds : list Datum) (fs : FileStream) :
  status fs ≠ StreamOk → emit ds fs = fs.
Proof.
  intros Hs. induction ds as [|d ds IH]; [done|].
  rewrite emit_cons. unfold emit at 2. simpl fold_left.
  unfold _write, FileStream_stream. by rewrite FileStream_write_failed.
Qed.

(** C7, as the code has it. [write] drops the result of every write. On
    every stream it ends as the root's encoding ends on the recording
    stream, and it leaves the stream that the three header writes and then
    every write of the root's encoding make of it, in order, each made
    whatever the one before handed back (through the adapter when the flag
    is set): no write is retried, none is left out after a failure. When
    it returns it hands back [true]. A failure shows in the stream only: a
    stream that was not in order is left as it was, and a stream that is
    in order afterwards was in order before and holds the whole
    document. *)
Theorem write_drops_write_results (this : TamlBinaryWriter) (fuel : nat)
    (h : Heap) (p : ptr) (compressed : bool) (stream : FileStream) :
  let header := [DString TAML_SIGNATURE; DU32 (mVersionId this); DBool compressed] in
  write this fuel h p compressed stream
    = match writeElement fuel h p ([] : Trace) with
      | Returned _ E =>
          Returned true
            (if compressed
             then detachStream (emit E (attachStream (emit header stream)))
             else emit E (emit header stream))
      | AssertFailed msg E =>
          AssertFailed msg
            (if compressed then emit header stream
             else emit E (emit header stream))
      | InvalidPointer => InvalidPointer
      | OutOfFuel => OutOfFuel
      end
  ∧ (∀ (result : bool) (stream' : FileStream),
       write this fuel h p compressed stream = Returned result stream' →
       result = true
       ∧ (status stream ≠ StreamOk → stream' = stream)
       ∧ (status stream' = StreamOk →
          status stream = StreamOk
          ∧ ∃ E : list Datum,
              writeElement fuel h p ([] : Trace) = Returned tt E
              ∧ contents stream'
                  = contents stream ++ map Plain header
                    ++ (if compressed then [Deflated E] else map Plain E))).
Proof.
  intros header.
  assert (write this fuel h p compressed stream
    = match writeElement fuel h p ([] : Trace) with
      | Returned _ E =>
          Returned true
            (if compressed
             then detachStream (emit E (attachStream (emit header stream)))
             else emit E (emit header stream))
      | AssertFailed msg E =>
          AssertFailed msg
            (if compressed then emit header stream
             else emit E (emit header stream))
      | InvalidPointer => InvalidPointer
      | OutOfFuel => OutOfFuel
      end) as Hw.
  { rewrite write_unfold. fold header. destruct compressed.
    - rewrite writeElement_replay.
      destruct (writeElement fuel h p ([] : Trace)) as [[] E|msg E| |]; simpl; try done.
      by rewrite emit_ZipSubWStream.
    - rewrite writeElement_replay.
      by destruct (writeElement fuel h p ([] : Trace)) as [[] E|msg E| |]. }
  split; [exact Hw|]. clearbody header. intros result stream'. rewrite Hw.
  destruct (writeElement fuel h p ([] : Trace)) as [[] E|msg E| |]; try done.
  intros [= <- <-]. split; [done|]. split.
  - intros Hs. destruct compressed.
    + rewrite (emit_FileStream_failed header stream Hs), emit_ZipSubWStream.
      unfold detachStream, attachStream. simpl.
      by apply FileStream_write_failed.
    + by rewrite (emit_FileStream_failed header stream Hs),
                 (emit_FileStream_failed E stream Hs).
  - intros Hok. destruct compressed.
    + rewrite emit_ZipSubWStream in Hok |- *.
      unfold detachStream, attachStream in Hok |- *. simpl in Hok |- *.
      destruct (FileStream_write_in_order _ _ Hok) as [Hok1 ->].
      destruct (emit_FileStream_in_order _ _ Hok1) as [Hok0 ->].
      split; [done|]. exists E. split; [done|]. by rewrite <- app_assoc.
    + destruct (emit_FileStream_in_order _ _ Hok) as [Hok1 ->].
      destruct (emit_FileStream_in_order _ _ Hok1) as [Hok0 ->].
      split; [done|]. exists E. split; [done|]. by rewrite <- app_assoc.
Qed.
End Document.

(** ** The encoders against the wire grammar *)

Section ElementInduction.
Variable P : Element → Prop.
Variable Q : CustomNode → Prop.
Hypothesis P_EAlias : ∀ typeName instanceName id backrefId,
  P (EAlias typeName instanceName id backrefId).
Hypothesis P_ENode : ∀ typeName instanceName id attributes children customs,
  Forall P children → Forall Q customs →
  P (ENode typeName instanceName id attributes children customs).
Hypothesis Q_CProxy : ∀ name element, P element → Q (CProxy name element).
Hypothesis Q_CPlain : ∀ name children fields,
  Forall Q children → Q (CPlain name children fields).

Fixpoint Element_induction (e : Element) : P e :=
  match e with
  | EAlias typeName instanceName id backrefId =>
      P_EAlias typeName instanceName id backrefId
  | ENode typeName instanceName id attributes children customs =>
      P_ENode typeName instanceName id attributes children customs
        ((fix all (l : list Element) : Forall P l :=
            match l with
            | [] => @List.Forall_nil _ P
            | x :: l' => @List.Forall_cons _ P x l' (Element_induction x) (all l')
            end) children)
        ((fix all (l : list CustomNode) : Forall Q l :=
            match l with
            | [] => @List.Forall_nil _ Q
            | x :: l' => @List.Forall_cons _ Q x l' (CustomNode_induction x) (all l')
            end) customs)
  end
with CustomNode_induction (c : CustomNode) : Q c :=
  match c with
  | CProxy name element => Q_CProxy name element (Element_induction element)
  | CPlain name children fields =>
      Q_CPlain name children fields
        ((fix all (l : list CustomNode) : Forall Q l :=
            match l with
            | [] => @List.Forall_nil _ Q
            | x :: l' => @List.Forall_cons _ Q x l' (CustomNode_induction x) (all l')
            end) children)
  end.
End ElementInduction.

Section Wire.
Context {macros : TamlMacros} {S : Type} `{!Stream S}.

Lemma bind_not_Returned {A B} (e : Enc S A) (k : A → Enc S B) (s : S) :
  kind (e s) ≠ KReturned → kind ((e ≫= k) s) ≠ KReturned.
Proof. unfold mbind, Enc_bind. by destruct (e s). Qed.

(** A loop over addresses against the trees at the addresses: it returns
    with the data of the trees, in order, when every address has a tree,
    and does not return otherwise. *)
Lemma forEach_mapM {T} (body : ptr → Enc S unit) (tree : ptr → option T)
    (data : T → list Datum) (v : list ptr) :
  (∀ x, match tree x with
        | Some e => ∀ s, body x s = Returned tt (emit (data e) s)
        | None => ∀ s, kind (body x s) ≠ KReturned
        end) →
  match mapM tree v with
  | Some es => ∀ s, forEach body v s = Returned tt (emit (flat_map data es) s)
  | None => ∀ s, kind (forEach body v s) ≠ KReturned
  end.
Proof.
  intros Hbody. induction v as [|x v IH]; simpl; [done|].
  specialize (Hbody x). destruct (tree x) as [e|]; simpl.
  - destruct (mapM tree v) as [es|]; simpl; intros s.
    + rewrite (bind_Returned _ _ _ _ _ (Hbody s)), IH. by rewrite emit_app.
    + rewrite (bind_Returned _ _ _ _ _ (Hbody s)). apply IH.
  - intros s. by apply bind_not_Returned.
Qed.
Lemma deref_bind_None {T A} (m : gmap positive T) (p : positive)
    (k : T → Enc S A) (s : S) :
  m !! p = None → (deref m p ≫= k) s = InvalidPointer.
Proof. unfold mbind, Enc_bind, deref. by intros ->. Qed.

Lemma writeElement_invalid (fuel : nat) (h : Heap) (p : ptr) (s : S) :
  writeNodes h !! p = None →
  writeElement (Datatypes.S fuel) h p s = InvalidPointer.
Proof. intros Hp. simpl. by rewrite (deref_bind_None _ _ _ _ Hp). Qed.

Lemma writeElement_invalid_target (fuel : nat) (h : Heap) (p q : ptr)
    (node : TamlWriteNode) (s : S) :
  writeNodes h !! p = Some node →
  mRefToNode node = Some q →
  writeNodes h !! q = None →
  writeElement (Datatypes.S fuel) h p s = InvalidPointer.
Proof.
  intros Hp Href Hq. simpl. rewrite (deref_bind _ _ _ _ _ Hp). cbv zeta.
  rewrite !writeString_bind, write_U32_bind, Href.
  by rewrite (deref_bind_None _ _ _ _ Hq).
Qed.

Lemma writeCustomNode_invalid (fuel : nat) (h : Heap) (c : ptr) (s : S) :
  customNodes h !! c = None →
  writeCustomNode (Datatypes.S fuel) h c s = InvalidPointer.
Proof. intros Hc. simpl. by rewrite (deref_bind_None _ _ _ _ Hc). Qed.

(** The encoders against the trees: where the address has a tree, the
    encoder returns and has written the data of the tree; where it has
    none, the encoder does not return. *)
Lemma encoders_wire (h : Heap) :
  heap_fits h →
  ∀ fuel,
    (∀ p, match reifyElement fuel h p with
          | Some e => ∀ s : S,
              writeElement fuel h p s = Returned tt (emit (wire_Element e) s)
          | None => ∀ s : S, kind (writeElement fuel h p s) ≠ KReturned
          end)
    ∧ (∀ c, match reifyCustomNode fuel h c with
            | Some k => ∀ s : S,
                writeCustomNode fuel h c s
                  = Returned tt (emit (wire_CustomNode k) s)
            | None => ∀ s : S, kind (writeCustomNode fuel h c s) ≠ KReturned
            end).
Proof.
  intros [HfN HfC] fuel. induction fuel as [|fuel [IHe IHc]]; [by split|].
  split.
  - intros p. simpl reifyElement.
    destruct (writeNodes h !! p) as [node|] eqn:Hp; simpl (_ ≫= _);
      [|intros s; by rewrite writeElement_invalid].
    destruct (mRefToNode node) as [q|] eqn:Href.
    + destruct (writeNodes h !! q) as [target|] eqn:Hq; simpl (_ ≫= _);
        [|intros s; by rewrite (writeElement_invalid_target _ _ _ _ _ _ Hp Href Hq)].
      destruct (mRefId target =? 0)%Z eqn:Hid; intros s.
      * apply Z.eqb_eq in Hid.
        by rewrite (writeElement_unassigned _ _ _ _ _ _ _ Hp Href Hq Hid).
      * apply Z.eqb_neq in Hid.
        by rewrite (writeElement_alias _ _ _ _ _ _ _ Hp Href Hq Hid).
    + pose proof (forEach_mapM (writeElement fuel h) (reifyElement fuel h)
                    wire_Element (default [] (mChildren node)) IHe) as Hch.
      pose proof (forEach_mapM (writeCustomNode fuel h) (reifyCustomNode fuel h)
                    wire_CustomNode (getNodes (mCustomNodes node)) IHc) as Hcu.
      destruct (mapM (reifyElement fuel h) _) as [children|] eqn:Hmc;
        simpl (_ ≫= _).
      * destruct (mapM (reifyCustomNode fuel h) _) as [customs|] eqn:Hmk;
          simpl (_ ≫= _); intros s;
          rewrite (writeElement_unfold_body _ _ _ _ _ Hp Href);
          (erewrite bind_Returned; [|by apply writeAttributes_emit]);
          (erewrite bind_Returned;
             [|by rewrite (writeChildren_forEach _ _ _ _ _ Hp), Hch]);
          rewrite (writeCustomElements_layout _ _ _ _ _ Hp).
        -- rewrite Hcu. f_equal. rewrite <- !emit_app.
           rewrite (length_mapM _ _ _ Hmc), (length_mapM _ _ _ Hmk). done.
        -- apply Hcu.
      * intros s. rewrite (writeElement_unfold_body _ _ _ _ _ Hp Href).
        erewrite bind_Returned; [|by apply writeAttributes_emit].
        apply bind_not_Returned.
        rewrite (writeChildren_forEach _ _ _ _ _ Hp). apply Hch.
  - intros c. simpl reifyCustomNode.
    destruct (customNodes h !! c) as [node|] eqn:Hc; simpl (_ ≫= _);
      [|intros s; by rewrite writeCustomNode_invalid].
    destruct (isProxyObject node) eqn:Hproxy.
    + specialize (IHe (getProxyWriteNode node)).
      destruct (reifyElement fuel h (getProxyWriteNode node)) as [e|];
        simpl (_ ≫= _); intros s;
        rewrite (writeCustomNode_proxy _ _ _ _ _ Hc Hproxy).
      * rewrite IHe. by rewrite <- emit_app.
      * apply IHe.
    + destruct (HfC c node Hc) as [Hch Hf].
      pose proof (forEach_mapM (writeCustomNode fuel h) (reifyCustomNode fuel h)
                    wire_CustomNode (getChildren node) IHc) as Hloop.
      destruct (mapM (reifyCustomNode fuel h) _) as [children|] eqn:Hmc;
        simpl (_ ≫= _); intros s;
        rewrite (writeCustomNode_plain _ _ _ _ _ Hc Hproxy Hch Hf).
      * erewrite bind_Returned; [|by apply Hloop]. unfold putAll.
        f_equal. rewrite <- !emit_app.
        simpl wire_CustomNode.
        rewrite <- (length_mapM _ _ _ Hmc), !U32_of_size_fits by done. done.
      * apply bind_not_Returned, Hloop.
Qed.
End Wire.

Section PrefixFree.
Context {macros : TamlMacros} {B : Type}.
Variable bytes : Datum → list B.
Variable lossless : Datum → Prop.
Hypothesis bytes_decodable : decodable bytes lossless.

Lemma flat_map_flat_map {T U V} (f : U → list V) (g : T → list U) (l : list T) :
  flat_map f (flat_map g l) = flat_map (λ x, flat_map f (g x)) l.
Proof. induction l as [|x l IH]; simpl; [done|]. by rewrite flat_map_app, IH. Qed.

Lemma Forall_flat_map {T U} (good : U → Prop) (g : T → list U) (l : list T) :
  Forall good (flat_map g l) ↔ Forall (λ x, Forall good (g x)) l.
Proof.
  induction l as [|x l IH]; simpl; [by split|].
  rewrite Forall_app, Forall_cons, IH. done.
Qed.

Lemma count_injective {T U} (v1 : list T) (v2 : list U) :
  fits_U32 v1 → fits_U32 v2 →
  U32_of_size (length v1) = U32_of_size (length v2) →
  length v1 = length v2.
Proof.
  unfold fits_U32, U32_of_size. intros H1 H2.
  rewrite !Z.mod_small by lia. lia.
Qed.

(** One write off the front of both sides. *)
Lemma datum_step (d1 d2 : Datum) (l1 l2 : list Datum) (r1 r2 : list B) :
  same_class d1 d2 = true →
  lossless d1 → lossless d2 →
  flat_map bytes (d1 :: l1) ++ r1 = flat_map bytes (d2 :: l2) ++ r2 →
  wire_equal d1 d2 ∧ flat_map bytes l1 ++ r1 = flat_map bytes l2 ++ r2.
Proof.
  intros Hclass H1 H2. simpl. rewrite <- !app_assoc.
  by apply bytes_decodable.
Qed.

Lemma AttributeFields_prefix_free (a1 a2 : list FieldValuePair) (r1 r2 : list B) :
  length a1 = length a2 →
  Forall lossless (wire_AttributeFields a1) →
  Forall lossless (wire_AttributeFields a2) →
  flat_map bytes (wire_AttributeFields a1) ++ r1
    = flat_map bytes (wire_AttributeFields a2) ++ r2 →
  a1 = a2 ∧ r1 = r2.
Proof.
  revert a2. induction a1 as [|[n1 v1] a1 IH]; intros [|[n2 v2] a2] Hlen Hl1 Hl2 Heq;
    try done.
  simpl in Hlen, Hl1, Hl2, Heq. injection Hlen as Hlen.
  apply Forall_cons in Hl1 as [Hn1 Hl1]. apply Forall_cons in Hl1 as [Hv1 Hl1].
  apply Forall_cons in Hl2 as [Hn2 Hl2]. apply Forall_cons in Hl2 as [Hv2 Hl2].
  rewrite <- !app_assoc in Heq.
  destruct (bytes_decodable (DString n1) (DString n2) _ _ eq_refl Hn1 Hn2 Heq)
    as [[= ->] Heq1].
  destruct (bytes_decodable (DLongString 4096 v1) (DLongString 4096 v2) _ _
              eq_refl Hv1 Hv2 Heq1) as [[= ->] Heq2].
  destruct (IH a2 Hlen Hl1 Hl2 Heq2) as [-> ->]. done.
Qed.

Lemma CustomFields_prefix_free (a1 a2 : list TamlCustomNodeField) (r1 r2 : list B) :
  length a1 = length a2 →
  Forall lossless (wire_CustomFields a1) →
  Forall lossless (wire_CustomFields a2) →
  flat_map bytes (wire_CustomFields a1) ++ r1
    = flat_map bytes (wire_CustomFields a2) ++ r2 →
  a1 = a2 ∧ r1 = r2.
Proof.
  revert a2. induction a1 as [|[n1 v1] a1 IH]; intros [|[n2 v2] a2] Hlen Hl1 Hl2 Heq;
    try done.
  simpl in Hlen, Hl1, Hl2, Heq. injection Hlen as Hlen.
  apply Forall_cons in Hl1 as [Hn1 Hl1]. apply Forall_cons in Hl1 as [Hv1 Hl1].
  apply Forall_cons in Hl2 as [Hn2 Hl2]. apply Forall_cons in Hl2 as [Hv2 Hl2].
  rewrite <- !app_assoc in Heq.
  destruct (bytes_decodable (DString n1) (DString n2) _ _ eq_refl Hn1 Hn2 Heq)
    as [[= ->] Heq1].
  destruct (bytes_decodable (DLongString _ v1) (DLongString _ v2) _ _
              (Z.eqb_refl _) Hv1 Hv2 Heq1) as [[= ->] Heq2].
  destruct (IH a2 Hlen Hl1 Hl2 Heq2) as [-> ->]. done.
Qed.

(** Sequences of equal length whose items are prefix-free item by item. *)
Lemma flat_map_prefix_free {T} (data : T → list B) (good : T → Prop)
    (l1 l2 : list T) (r1 r2 : list B) :
  length l1 = length l2 →
  Forall (λ x, ∀ y r1 r2, good y → data x ++ r1 = data y ++ r2 → x = y ∧ r1 = r2) l1 →
  Forall good l2 →
  flat_map data l1 ++ r1 = flat_map data l2 ++ r2 →
  l1 = l2 ∧ r1 = r2.
Proof.
  intros Hlen Hl1. revert l2 Hlen.
  induction Hl1 as [|x l1 Hx _ IH]; intros [|y l2] Hlen Hgood Heq; try done.
  simpl in Hlen, Heq. injection Hlen as Hlen.
  apply Forall_cons in Hgood as [Hy Hgood].
  rewrite <- !app_assoc in Heq.
  destruct (Hx y _ _ Hy Heq) as [-> Heq'].
  destruct (IH l2 Hlen Hgood Heq') as [-> ->]. done.
Qed.
Lemma wire_ENode_cons typeName instanceName id attributes children customs :
  wire_Element (ENode typeName instanceName id attributes children customs)
  = DString typeName :: DString instanceName :: DU32 id :: DS32 0
    :: DU32 (U32_of_size (length attributes))
    :: (wire_AttributeFields attributes
        ++ DU32 (U32_of_size (length children))
           :: (flat_map wire_Element children
               ++ DU32 (U32_of_size (length customs))
                  :: flat_map wire_CustomNode customs)).
Proof. reflexivity. Qed.

Lemma wire_CPlain_cons name children fields :
  wire_CustomNode (CPlain name children fields)
  = DString name :: DBool false
    :: DU32 (U32_of_size (length children))
    :: (flat_map wire_CustomNode children
        ++ DU32 (U32_of_size (length fields)) :: wire_CustomFields fields).
Proof. reflexivity. Qed.

Lemma wire_CProxy_cons name element :
  wire_CustomNode (CProxy name element)
  = DString name :: DBool true :: wire_Element element.
Proof. reflexivity. Qed.

Lemma lossless_ENode typeName instanceName id attributes children customs :
  Forall lossless
    (wire_Element (ENode typeName instanceName id attributes children customs)) →
  lossless (DString typeName) ∧ lossless (DString instanceName)
  ∧ lossless (DU32 id) ∧ lossless (DS32 0)
  ∧ lossless (DU32 (U32_of_size (length attributes)))
  ∧ Forall lossless (wire_AttributeFields attributes)
  ∧ lossless (DU32 (U32_of_size (length children)))
  ∧ Forall (λ e, Forall lossless (wire_Element e)) children
  ∧ lossless (DU32 (U32_of_size (length customs)))
  ∧ Forall (λ c, Forall lossless (wire_CustomNode c)) customs.
Proof.
  rewrite wire_ENode_cons, !Forall_cons, Forall_app, Forall_cons, Forall_app,
    Forall_cons, !Forall_flat_map.
  tauto.
Qed.

Lemma lossless_CPlain name children fields :
  Forall lossless (wire_CustomNode (CPlain name children fields)) →
  lossless (DString name) ∧ lossless (DBool false)
  ∧ lossless (DU32 (U32_of_size (length children)))
  ∧ Forall (λ c, Forall lossless (wire_CustomNode c)) children
  ∧ lossless (DU32 (U32_of_size (length fields)))
  ∧ Forall lossless (wire_CustomFields fields).
Proof.
  rewrite wire_CPlain_cons, !Forall_cons, Forall_app, Forall_cons,
    !Forall_flat_map.
  tauto.
Qed.

Lemma flat_map_bytes_trees {T} (wire : T → list Datum) (l : list T)
    (rest : list Datum) (r : list B) :
  flat_map bytes (flat_map wire l ++ rest) ++ r
  = flat_map (λ x, flat_map bytes (wire x)) l ++ flat_map bytes rest ++ r.
Proof. by rewrite flat_map_app, flat_map_flat_map, <- app_assoc. Qed.

(** The bytes of a tree tell the tree and where it ends: among trees that
    the encoders can have written and whose data are written in full, no
    two different trees have bytes of which one is the beginning of the
    other. *)
Lemma bytes_prefix_free :
  (∀ e1, wf_Element e1 → Forall lossless (wire_Element e1) →
     ∀ e2 r1 r2, wf_Element e2 ∧ Forall lossless (wire_Element e2) →
       flat_map bytes (wire_Element e1) ++ r1
         = flat_map bytes (wire_Element e2) ++ r2 →
       e1 = e2 ∧ r1 = r2)
  ∧ (∀ c1, wf_CustomNode c1 → Forall lossless (wire_CustomNode c1) →
     ∀ c2 r1 r2, wf_CustomNode c2 ∧ Forall lossless (wire_CustomNode c2) →
       flat_map bytes (wire_CustomNode c1) ++ r1
         = flat_map bytes (wire_CustomNode c2) ++ r2 →
       c1 = c2 ∧ r1 = r2).
Proof.
  pose (goodE := λ e, wf_Element e ∧ Forall lossless (wire_Element e)).
  pose (goodC := λ c, wf_CustomNode c ∧ Forall lossless (wire_CustomNode c)).
  pose (P := λ e1, wf_Element e1 → Forall lossless (wire_Element e1) →
     ∀ e2 r1 r2, goodE e2 →
       flat_map bytes (wire_Element e1) ++ r1
         = flat_map bytes (wire_Element e2) ++ r2 →
       e1 = e2 ∧ r1 = r2).
  pose (Q := λ c1, wf_CustomNode c1 → Forall lossless (wire_CustomNode c1) →
     ∀ c2 r1 r2, goodC c2 →
       flat_map bytes (wire_CustomNode c1) ++ r1
         = flat_map bytes (wire_CustomNode c2) ++ r2 →
       c1 = c2 ∧ r1 = r2).
  assert (∀ l, Forall P l → Forall wf_Element l →
               Forall (λ e, Forall lossless (wire_Element e)) l →
               Forall (λ x, ∀ y s1 s2, goodE y →
                  flat_map bytes (wire_Element x) ++ s1
                    = flat_map bytes (wire_Element y) ++ s2 → x = y ∧ s1 = s2) l)
    as HallE.
  { intros l HP Hwf Hfull. apply Forall_forall. intros x Hx.
    rewrite Forall_forall in HP, Hwf, Hfull. intros y s1 s2 Hy.
    apply (HP x Hx); auto. }
  assert (∀ l, Forall Q l → Forall wf_CustomNode l →
               Forall (λ c, Forall lossless (wire_CustomNode c)) l →
               Forall (λ x, ∀ y s1 s2, goodC y →
                  flat_map bytes (wire_CustomNode x) ++ s1
                    = flat_map bytes (wire_CustomNode y) ++ s2 → x = y ∧ s1 = s2) l)
    as HallC.
  { intros l HQ Hwf Hfull. apply Forall_forall. intros x Hx.
    rewrite Forall_forall in HQ, Hwf, Hfull. intros y s1 s2 Hy.
    apply (HQ x Hx); auto. }
  assert (∀ l, Forall wf_Element l →
               Forall (λ e, Forall lossless (wire_Element e)) l → Forall goodE l)
    as HgoodE by (intros l H1 H2; by apply Forall_and).
  assert (∀ l, Forall wf_CustomNode l →
               Forall (λ c, Forall lossless (wire_CustomNode c)) l → Forall goodC l)
    as HgoodC by (intros l H1 H2; by apply Forall_and).
  assert (∀ ty name id b, P (EAlias ty name id b)) as HAlias.
  { intros ty name id b Hwf1 Hl1 [ty2 name2 id2 b2|ty2 name2 id2 a2 ch2 cu2]
      r1 r2 [Hwf2 Hl2] Heq.
    - simpl in Hl1, Hl2. rewrite !Forall_cons in Hl1, Hl2.
      destruct Hl1 as (L1 & L2 & L3 & L4 & _), Hl2 as (M1 & M2 & M3 & M4 & _).
      change (wire_Element (EAlias ty name id b))
        with [DString ty; DString name; DU32 id; DU32 b] in Heq.
      change (wire_Element (EAlias ty2 name2 id2 b2))
        with [DString ty2; DString name2; DU32 id2; DU32 b2] in Heq.
      apply datum_step in Heq as [[= ->] Heq]; [|done..].
      apply datum_step in Heq as [[= ->] Heq]; [|done..].
      apply datum_step in Heq as [[= ->] Heq]; [|done..].
      apply datum_step in Heq as [[= ->] Heq]; [|done..].
      done.
    - simpl in Hl1. rewrite !Forall_cons in Hl1.
      destruct Hl1 as (L1 & L2 & L3 & L4 & _).
      destruct (lossless_ENode _ _ _ _ _ _ Hl2) as (M1 & M2 & M3 & M4 & _).
      change (wire_Element (EAlias ty name id b))
        with [DString ty; DString name; DU32 id; DU32 b] in Heq.
      rewrite wire_ENode_cons in Heq.
      apply datum_step in Heq as [_ Heq]; [|done..].
      apply datum_step in Heq as [_ Heq]; [|done..].
      apply datum_step in Heq as [_ Heq]; [|done..].
      apply datum_step in Heq as [Hb _]; [|done..].
      simpl in Hb. inversion Hwf1; subst. done. }
  assert (∀ ty name id a ch cu, Forall P ch → Forall Q cu →
            P (ENode ty name id a ch cu)) as HNode.
  { intros ty name id a ch cu IHch IHcu Hwf1 Hl1
      [ty2 name2 id2 b2|ty2 name2 id2 a2 ch2 cu2] r1 r2 [Hwf2 Hl2] Heq.
    - simpl in Hl2. rewrite !Forall_cons in Hl2.
      destruct Hl2 as (M1 & M2 & M3 & M4 & _).
      destruct (lossless_ENode _ _ _ _ _ _ Hl1) as (L1 & L2 & L3 & L4 & _).
      change (wire_Element (EAlias ty2 name2 id2 b2))
        with [DString ty2; DString name2; DU32 id2; DU32 b2] in Heq.
      rewrite wire_ENode_cons in Heq.
      apply datum_step in Heq as [_ Heq]; [|done..].
      apply datum_step in Heq as [_ Heq]; [|done..].
      apply datum_step in Heq as [_ Heq]; [|done..].
      apply datum_step in Heq as [Hb _]; [|done..].
      simpl in Hb. inversion Hwf2; subst. done.
    - destruct (lossless_ENode _ _ _ _ _ _ Hl1)
        as (L1 & L2 & L3 & L4 & L5 & LF & L6 & LC & L7 & LK).
      destruct (lossless_ENode _ _ _ _ _ _ Hl2)
        as (M1 & M2 & M3 & M4 & M5 & MF & M6 & MC & M7 & MK).
      inversion Hwf1 as [|? ? ? ? ? ? Ha1 Hc1 Hk1 Hwc1 Hwk1]; subst.
      inversion Hwf2 as [|? ? ? ? ? ? Ha2 Hc2 Hk2 Hwc2 Hwk2]; subst.
      rewrite !wire_ENode_cons in Heq.
      apply datum_step in Heq as [[= ->] Heq]; [|done..].
      apply datum_step in Heq as [[= ->] Heq]; [|done..].
      apply datum_step in Heq as [[= ->] Heq]; [|done..].
      apply datum_step in Heq as [_ Heq]; [|done..].
      apply datum_step in Heq as [[= Hna] Heq]; [|done..].
      apply (count_injective _ _ Ha1 Ha2) in Hna.
      rewrite !flat_map_app, <- !app_assoc in Heq.
      destruct (AttributeFields_prefix_free _ _ _ _ Hna LF MF Heq) as [-> Heq1].
      apply datum_step in Heq1 as [[= Hnc] Heq1]; [|done..].
      apply (count_injective _ _ Hc1 Hc2) in Hnc.
      rewrite !flat_map_bytes_trees in Heq1.
      destruct (flat_map_prefix_free _ goodE ch ch2 _ _ Hnc
                  (HallE ch IHch Hwc1 LC) (HgoodE ch2 Hwc2 MC) Heq1) as [-> Heq2].
      apply datum_step in Heq2 as [[= Hnk] Heq2]; [|done..].
      apply (count_injective _ _ Hk1 Hk2) in Hnk.
      rewrite !flat_map_flat_map in Heq2.
      destruct (flat_map_prefix_free _ goodC cu cu2 _ _ Hnk
                  (HallC cu IHcu Hwk1 LK) (HgoodC cu2 Hwk2 MK) Heq2) as [-> ->].
      done. }
  assert (∀ name e, P e → Q (CProxy name e)) as HProxy.
  { intros name e IHe Hwf1 Hl1 [name2 e2|name2 ch2 f2] r1 r2 [Hwf2 Hl2] Heq.
    - rewrite !wire_CProxy_cons in Heq, Hl1, Hl2.
      rewrite !Forall_cons in Hl1, Hl2.
      destruct Hl1 as (L1 & L2 & L3), Hl2 as (M1 & M2 & M3).
      inversion Hwf1; subst. inversion Hwf2; subst.
      apply datum_step in Heq as [[= ->] Heq]; [|done..].
      apply datum_step in Heq as [_ Heq]; [|done..].
      destruct (IHe ltac:(done) L3 e2 r1 r2 ltac:(done) Heq) as [-> ->]. done.
    - rewrite wire_CProxy_cons in Heq, Hl1. rewrite !Forall_cons in Hl1.
      destruct Hl1 as (L1 & L2 & L3).
      destruct (lossless_CPlain _ _ _ Hl2) as (M1 & M2 & _).
      rewrite wire_CPlain_cons in Heq.
      apply datum_step in Heq as [_ Heq]; [|done..].
      apply datum_step in Heq as [Hb _]; [|done..]. done. }
  assert (∀ name ch f, Forall Q ch → Q (CPlain name ch f)) as HPlain.
  { intros name ch f IHch Hwf1 Hl1 [name2 e2|name2 ch2 f2] r1 r2 [Hwf2 Hl2] Heq.
    - rewrite wire_CProxy_cons in Heq, Hl2. rewrite !Forall_cons in Hl2.
      destruct Hl2 as (M1 & M2 & M3).
      destruct (lossless_CPlain _ _ _ Hl1) as (L1 & L2 & _).
      rewrite wire_CPlain_cons in Heq.
      apply datum_step in Heq as [_ Heq]; [|done..].
      apply datum_step in Heq as [Hb _]; [|done..]. done.
    - destruct (lossless_CPlain _ _ _ Hl1) as (L1 & L2 & L3 & LC & L4 & LF).
      destruct (lossless_CPlain _ _ _ Hl2) as (M1 & M2 & M3 & MC & M4 & MF).
      inversion Hwf1 as [|? ? ? Hc1 Hf1 Hwc1]; subst.
      inversion Hwf2 as [|? ? ? Hc2 Hf2 Hwc2]; subst.
      rewrite !wire_CPlain_cons in Heq.
      apply datum_step in Heq as [[= ->] Heq]; [|done..].
      apply datum_step in Heq as [_ Heq]; [|done..].
      apply datum_step in Heq as [[= Hnc] Heq]; [|done..].
      apply (count_injective _ _ Hc1 Hc2) in Hnc.
      rewrite !flat_map_bytes_trees in Heq.
      destruct (flat_map_prefix_free _ goodC ch ch2 _ _ Hnc
                  (HallC ch IHch Hwc1 LC) (HgoodC ch2 Hwc2 MC) Heq) as [-> Heq1].
      apply datum_step in Heq1 as [[= Hnf] Heq1]; [|done..].
      apply (count_injective _ _ Hf1 Hf2) in Hnf.
      destruct (CustomFields_prefix_free _ _ _ _ Hnf LF MF Heq1) as [-> ->].
      done. }
  split.
  - exact (Element_induction P Q HAlias HNode HProxy HPlain).
  - exact (CustomNode_induction P Q HAlias HNode HProxy HPlain).
Qed.
End PrefixFree.

Section SampleFormat.

Lemma le32_inj (v w : Z) :
  (0 ≤ v < 2 ^ 32)%Z → (0 ≤ w < 2 ^ 32)%Z → le32 v = le32 w → v = w.
Proof.
  unfold le32. intros Hv Hw [= H0 H1 H2 H3].
  change (2 ^ 32)%Z with 4294967296%Z in *.
  Z.div_mod_to_equations. lia.
Qed.

Lemma length_chars (str : string) : length (chars str) = String.length str.
Proof.
  unfold chars. rewrite length_map.
  induction str as [|a str IH]; simpl; [done|]. by rewrite IH.
Qed.

Lemma chars_inj (s1 s2 : string) : chars s1 = chars s2 → s1 = s2.
Proof.
  unfold chars. intros Heq.
  rewrite <- (String.string_of_list_ascii_of_string s1),
          <- (String.string_of_list_ascii_of_string s2).
  f_equal. revert Heq.
  generalize (String.list_ascii_of_string s1) (String.list_ascii_of_string s2).
  intros l1. induction l1 as [|a l1 IH]; intros [|b l2] Heq; try done.
  simpl in Heq. injection Heq as Hab Heq.
  apply (f_equal Z.to_N) in Hab. rewrite !N2Z.id in Hab.
  apply (f_equal Ascii.ascii_of_N) in Hab.
  rewrite !Ascii.ascii_N_embedding in Hab. subst b. f_equal. by apply IH.
Qed.

Lemma substring_all (str : string) (n : nat) :
  String.length str ≤ n → String.substring 0 n str = str.
Proof.
  revert n. induction str as [|a str IH]; intros [|n] Hn; simpl in *;
    [done|done|lia|].
  f_equal. apply IH. lia.
Qed.

Lemma truncate_lossless (maxStringLen : Z) (str : string) :
  (Z.of_nat (String.length str) ≤ maxStringLen)%Z →
  truncate maxStringLen str = str.
Proof. intros Hlen. apply substring_all. lia. Qed.

(** Strings with their length before them. *)
Lemma le32_chars_prefix_free (s1 s2 : string) (r1 r2 : list Z) :
  (Z.of_nat (String.length s1) < 2 ^ 32)%Z →
  (Z.of_nat (String.length s2) < 2 ^ 32)%Z →
  (le32 (Z.of_nat (String.length s1)) ++ chars s1) ++ r1
    = (le32 (Z.of_nat (String.length s2)) ++ chars s2) ++ r2 →
  s1 = s2 ∧ r1 = r2.
Proof.
  intros H1 H2 Heq. rewrite <- !app_assoc in Heq.
  apply app_inj_1 in Heq as [Hlen Heq]; [|done].
  apply le32_inj in Hlen; [|lia..].
  apply app_inj_1 in Heq as [Hchars ->]; [|rewrite !length_chars; lia].
  split; [by apply chars_inj | done].
Qed.

Lemma le32_prefix_free (v w : Z) (r1 r2 : list Z) :
  (0 ≤ v < 2 ^ 32)%Z → (0 ≤ w < 2 ^ 32)%Z →
  le32 v ++ r1 = le32 w ++ r2 → v = w ∧ r1 = r2.
Proof.
  intros Hv Hw Heq. apply app_inj_1 in Heq as [Heq ->]; [|done].
  split; [by apply le32_inj | done].
Qed.

(** The sample format is decodable. *)
Lemma sampleBytes_decodable : decodable sampleBytes sampleLossless.
Proof.
  assert (∀ v, 0 ≤ v mod 2 ^ 32 < 2 ^ 32)%Z as Hmod
    by (intros v; by apply Z.mod_pos_bound).
  intros d1 d2 r1 r2 Hclass H1 H2 Heq.
  destruct d1 as [s1|m1 s1|v|v|b1], d2 as [s2|m2 s2|w|w|b2];
    try discriminate Hclass; simpl in H1, H2 |- *; cbn [sampleBytes] in Heq.
  - destruct (le32_chars_prefix_free s1 s2 r1 r2 H1 H2 Heq) as [-> ->]. done.
  - apply Z.eqb_eq in Hclass as ->. destruct H1 as [H1 Hm], H2 as [H2 _].
    rewrite !truncate_lossless in Heq by done.
    destruct (le32_chars_prefix_free s1 s2 r1 r2 ltac:(lia) ltac:(lia) Heq)
      as [-> ->]. done.
  - destruct (le32_prefix_free _ _ _ _ (Hmod v) (Hmod w) Heq) as [Hvw ->].
    rewrite !Z.mod_small in Hvw by lia. by subst.
  - destruct (le32_prefix_free _ _ _ _ (Hmod v) (Hmod w) Heq) as [Hvw ->].
    rewrite (Z.mod_small v) in Hvw by lia. done.
  - destruct (le32_prefix_free _ _ _ _ (Hmod v) (Hmod w) Heq) as [Hvw ->].
    rewrite (Z.mod_small w) in Hvw by lia. done.
  - destruct (le32_prefix_free _ _ _ _ (Hmod v) (Hmod w) Heq) as [Hvw ->].
    split; [|done]. f_equal. change (2 ^ 31)%Z with 2147483648%Z in *.
    change (2 ^ 32)%Z with 4294967296%Z in *.
    Z.div_mod_to_equations. lia.
  - injection Heq as Hb ->. split; [|done]. by destruct b1, b2.
Qed.
End SampleFormat.

Section Trees.

Lemma mapM_Forall {A B} (f : A → option B) (good : B → Prop)
    (l : list A) (k : list B) :
  (∀ x y, f x = Some y → good y) → mapM f l = Some k → Forall good k.
Proof.
  intros Hf Hm. apply mapM_Some_1 in Hm.
  induction Hm as [|x y l k Hxy _ IH]; constructor; eauto.
Qed.

Lemma fits_U32_length {A B} (l : list A) (k : list B) :
  length l = length k → fits_U32 l → fits_U32 k.
Proof. unfold fits_U32. by intros ->. Qed.

(** The tree at an address of a heap whose vectors fit is a tree that the
    encoders can have written. *)
Lemma reify_wf (h : Heap) :
  heap_fits h →
  ∀ fuel,
    (∀ p e, reifyElement fuel h p = Some e → wf_Element e)
    ∧ (∀ c k, reifyCustomNode fuel h c = Some k → wf_CustomNode k).
Proof.
  intros [HfN HfC] fuel. induction fuel as [|fuel [IHe IHc]]; [by split|].
  split.
  - intros p e. simpl reifyElement.
    destruct (writeNodes h !! p) as [node|] eqn:Hp; simpl (_ ≫= _); [|done].
    destruct (HfN p node Hp) as (Hfa & Hfc & Hfk).
    destruct (mRefToNode node) as [q|].
    + destruct (writeNodes h !! q) as [target|]; simpl (_ ≫= _); [|done].
      destruct (mRefId target =? 0)%Z eqn:Hid; [done|].
      intros [= <-]. constructor. by apply Z.eqb_neq.
    + destruct (mapM (reifyElement fuel h) _) as [children|] eqn:Hmc;
        simpl (_ ≫= _); [|done].
      destruct (mapM (reifyCustomNode fuel h) _) as [customs|] eqn:Hmk;
        simpl (_ ≫= _); [|done].
      intros [= <-]. constructor; [done| | | |].
      * by apply (fits_U32_length _ _ (length_mapM _ _ _ Hmc)).
      * by apply (fits_U32_length _ _ (length_mapM _ _ _ Hmk)).
      * by apply (mapM_Forall _ _ _ _ (IHe) Hmc).
      * by apply (mapM_Forall _ _ _ _ (IHc) Hmk).
  - intros c k. simpl reifyCustomNode.
    destruct (customNodes h !! c) as [node|] eqn:Hc; simpl (_ ≫= _); [|done].
    destruct (HfC c node Hc) as [Hfc Hff].
    destruct (isProxyObject node).
    + destruct (reifyElement fuel h _) as [e|] eqn:He; simpl (_ ≫= _); [|done].
      intros [= <-]. constructor. by apply (IHe _ _ He).
    + destruct (mapM (reifyCustomNode fuel h) _) as [children|] eqn:Hmc;
        simpl (_ ≫= _); [|done].
      intros [= <-]. constructor; [|done|].
      * by apply (fits_U32_length _ _ (length_mapM _ _ _ Hmc)).
      * by apply (mapM_Forall _ _ _ _ (IHc) Hmc).
Qed.

(** On a closed, well-founded heap whose referenced targets have their
    ids, every address of the heap has its tree, from the depth that its
    rank gives. *)
Lemma reify_succeeds (h : Heap) (rankN rankC : ptr → nat) :
  closed h → descends h rankN rankC → references_assigned h →
  ∀ fuel,
    (∀ p, is_Some (writeNodes h !! p) → rankN p < fuel →
          is_Some (reifyElement fuel h p))
    ∧ (∀ c, is_Some (customNodes h !! c) → rankC c < fuel →
            is_Some (reifyCustomNode fuel h c)).
Proof.
  intros [HcN HcC] [HdN HdC] Hrefs fuel.
  induction fuel as [|fuel [IHe IHc]]; [split; intros; lia|].
  split.
  - intros p [node Hp] Hrank. simpl reifyElement. rewrite Hp. simpl (_ ≫= _).
    pose proof (HcN p node Hp) as Hclosed. unfold node_closed in Hclosed.
    destruct (mRefToNode node) as [q|] eqn:Href.
    + destruct Hclosed as [target Hq]. rewrite Hq. simpl (_ ≫= _).
      pose proof (target_assigned_spec h p q node target Hrefs Hp Href Hq) as Hid.
      apply Z.eqb_neq in Hid. by rewrite Hid.
    + destruct Hclosed as [Hch Hcu]. destruct (HdN p node Hp Href) as [Hrch Hrcu].
      assert (is_Some (mapM (reifyElement fuel h) (default [] (mChildren node))))
        as [children ->].
      { apply mapM_is_Some. apply Forall_forall. intros q Hq.
        rewrite Forall_forall in Hch, Hrch. apply IHe; [by apply Hch|].
        specialize (Hrch q Hq). simpl in Hrch. lia. }
      assert (is_Some (mapM (reifyCustomNode fuel h) (getNodes (mCustomNodes node))))
        as [customs ->].
      { apply mapM_is_Some. apply Forall_forall. intros c Hc.
        rewrite Forall_forall in Hcu, Hrcu. apply IHc; [by apply Hcu|].
        specialize (Hrcu c Hc). simpl in Hrcu. lia. }
      done.
  - intros c [node Hc] Hrank. simpl reifyCustomNode. rewrite Hc. simpl (_ ≫= _).
    pose proof (HcC c node Hc) as Hclosed. unfold custom_closed in Hclosed.
    destruct (HdC c node Hc) as [Hrp Hrch].
    destruct (isProxyObject node).
    + destruct (IHe (getProxyWriteNode node) Hclosed) as [e ->]; [|done].
      specialize (Hrp eq_refl). lia.
    + assert (is_Some (mapM (reifyCustomNode fuel h) (getChildren node)))
        as [children ->].
      { apply mapM_is_Some. apply Forall_forall. intros c' Hc'.
        specialize (Hrch eq_refl).
        rewrite Forall_forall in Hclosed, Hrch. apply IHc; [by apply Hclosed|].
        specialize (Hrch c' Hc'). simpl in Hrch. lia. }
      done.
Qed.
End Trees.

(** ** Further properties of the encoders *)

Section Independence.
Context {macros : TamlMacros} {S : Type} `{!Stream S}.

(** X1. No encoder looks at the stream or at what a write hands back: on
    any stream, from any state, each of the five encoders makes exactly
    the calls that it makes on the recording stream, and ends the same
    way. *)
Theorem encoders_stream_independent (fuel : nat) (h : Heap) (p : ptr) (s : S) :
  writeElement fuel h p s = replay (writeElement fuel h p ([] : Trace)) s
  ∧ writeAttributes h p s = replay (writeAttributes h p ([] : Trace)) s
  ∧ writeChildren fuel h p s = replay (writeChildren fuel h p ([] : Trace)) s
  ∧ writeCustomElements fuel h p s
      = replay (writeCustomElements fuel h p ([] : Trace)) s
  ∧ writeCustomNode fuel h p s = replay (writeCustomNode fuel h p ([] : Trace)) s.
Proof.
  destruct (encoders_mirror (S:=S) fuel) as [He Hc].
  split; [apply He|]. split; [apply writeAttributes_mirrors|].
  split; [|split; [|apply Hc]].
  - by apply writeChildrenWith_mirrors.
  - by apply writeCustomElementsWith_mirrors.
Qed.

(** X2. The custom-element encoder writes the number of custom nodes and
    then the encoding of each custom node in array order; with no custom
    node it writes the count 0 and nothing else. *)
Theorem writeCustomElements_trace (fuel : nat) (h : Heap) (p : ptr)
    (node : TamlWriteNode) (s : S) :
  writeNodes h !! p = Some node →
  (∀ ts : list (list Datum),
     Forall2 (λ c t, writeCustomNode fuel h c ([] : Trace) = Returned tt t)
             (getNodes (mCustomNodes node)) ts →
     writeCustomElements fuel h p s
       = Returned tt
           (emit (DU32 (U32_of_size (length (getNodes (mCustomNodes node))))
                  :: concat ts) s))
  ∧ (getNodes (mCustomNodes node) = [] →
     writeCustomElements fuel h p s = Returned tt (emit [DU32 0] s)).
Proof.
  intros Hp. rewrite (writeCustomElements_layout _ _ _ _ _ Hp). split.
  - intros ts Hts. rewrite (emit_cons (DU32 _)).
    apply forEach_concat. eapply Forall2_impl; [exact Hts|].
    intros c t Hc s'. by apply writeCustomNode_Returned.
  - by intros ->.
Qed.

(** What the recording stream held stays, and the calls are added. *)
Lemma Trace_extends {A} (e : Enc Trace A) (t0 t : Trace) (a : A) :
  (∀ t1, e t1 = replay (e []) t1) →
  e t0 = Returned a t → ∃ rest, t = t0 ++ rest.
Proof.
  intros He. rewrite He. destruct (e []) as [a' t'| | |]; simpl; try done.
  intros [= _ <-]. exists t'. by rewrite emit_Trace.
Qed.

(** X7. In every encoding that the element encoder returns, the header is
    followed by the backreference field, and that field is 0 on the wire
    exactly when the node is not an alias. *)
Theorem backreference_marker (fuel : nat) (h : Heap) (p : ptr)
    (node : TamlWriteNode) (t : Trace) :
  writeNodes h !! p = Some node →
  writeElement (Datatypes.S fuel) h p ([] : Trace) = Returned tt t →
  ∃ (d : Datum) (rest : list Datum),
    t = wire_ElementHeader node ++ d :: rest
    ∧ (onWire d = DU32 0 ↔ mRefToNode node = None).
Proof.
  intros Hp. destruct (mRefToNode node) as [q|] eqn:Href.
  - destruct (writeNodes h !! q) as [target|] eqn:Hq;
      [|by rewrite (writeElement_invalid_target _ _ _ _ _ _ Hp Href Hq)].
    destruct (decide (mRefId target = 0%Z)) as [Hid|Hid].
    + by rewrite (writeElement_unassigned _ _ _ _ _ _ _ Hp Href Hq Hid).
    + rewrite (writeElement_alias _ _ _ _ _ _ _ Hp Href Hq Hid).
      rewrite emit_Trace. intros [= <-]. exists (DU32 (mRefId target)), [].
      split; [done|]. simpl. split; [|done]. intros [= Hz]. done.
  - rewrite (writeElement_unfold_body _ _ _ _ _ Hp Href), emit_Trace.
    intros Hret. apply Trace_extends in Hret as [rest ->].
    + exists (DS32 0), rest. split; [by rewrite <- app_assoc|]. done.
    + intros t1. apply mirrors_bind; [apply writeAttributes_mirrors|intros _].
      apply mirrors_bind; [|intros _].
      * apply writeChildrenWith_mirrors. apply encoders_mirror.
      * apply writeCustomElementsWith_mirrors. apply encoders_mirror.
Qed.
End Independence.

Section Grammar.
Context {macros : TamlMacros}.

(** X3. The encoders write the wire grammar. On a heap whose vectors fit
    their counts, the element encoder returns exactly at the addresses
    that have a tree, and what it has written on any stream are the data
    of that tree, production by production; so does the custom-node
    encoder. *)
Theorem encoders_write_trees (h : Heap) (fuel : nat) :
  heap_fits h →
  (∀ (p : ptr) (e : Element) (S : Type) (St : Stream S) (s : S),
     reifyElement fuel h p = Some e →
     writeElement fuel h p s = Returned tt (emit (wire_Element e) s))
  ∧ (∀ (p : ptr) (t : Trace),
       writeElement fuel h p ([] : Trace) = Returned tt t →
       ∃ e, reifyElement fuel h p = Some e ∧ wf_Element e ∧ t = wire_Element e)
  ∧ (∀ (c : ptr) (k : CustomNode) (S : Type) (St : Stream S) (s : S),
       reifyCustomNode fuel h c = Some k →
       writeCustomNode fuel h c s = Returned tt (emit (wire_CustomNode k) s))
  ∧ (∀ (c : ptr) (t : Trace),
       writeCustomNode fuel h c ([] : Trace) = Returned tt t →
       ∃ k, reifyCustomNode fuel h c = Some k ∧ wf_CustomNode k
            ∧ t = wire_CustomNode k).
Proof.
  intros Hfits. destruct (reify_wf h Hfits fuel) as [HwfE HwfC].
  split; [|split; [|split]].
  - intros p e S St s He.
    destruct (encoders_wire (S:=S) h Hfits fuel) as [Hw _].
    specialize (Hw p). rewrite He in Hw. apply Hw.
  - intros p t Ht.
    destruct (encoders_wire (S:=Trace) h Hfits fuel) as [Hw _].
    specialize (Hw p). destruct (reifyElement fuel h p) as [e|] eqn:He.
    + exists e. split; [done|]. split; [by apply (HwfE p)|].
      rewrite Hw, emit_Trace in Ht. by injection Ht as <-.
    + specialize (Hw []). by rewrite Ht in Hw.
  - intros c k S St s Hk.
    destruct (encoders_wire (S:=S) h Hfits fuel) as [_ Hw].
    specialize (Hw c). rewrite Hk in Hw. apply Hw.
  - intros c t Ht.
    destruct (encoders_wire (S:=Trace) h Hfits fuel) as [_ Hw].
    specialize (Hw c). destruct (reifyCustomNode fuel h c) as [k|] eqn:Hk.
    + exists k. split; [done|]. split; [by apply (HwfC c)|].
      rewrite Hw, emit_Trace in Ht. by injection Ht as <-.
    + specialize (Hw []). by rewrite Ht in Hw.
Qed.

Lemma writeElement_tree (h : Heap) (fuel : nat) (p : ptr) (t : Trace) :
  heap_fits h →
  writeElement fuel h p ([] : Trace) = Returned tt t →
  ∃ e, reifyElement fuel h p = Some e ∧ wf_Element e ∧ t = wire_Element e.
Proof.
  intros Hfits Ht. destruct (reify_wf h Hfits fuel) as [HwfE _].
  destruct (encoders_wire (S:=Trace) h Hfits fuel) as [Hw _].
  specialize (Hw p). destruct (reifyElement fuel h p) as [e|] eqn:He.
  - exists e. split; [done|]. split; [by apply (HwfE p)|].
    rewrite Hw, emit_Trace in Ht. by injection Ht as <-.
  - specialize (Hw []). by rewrite Ht in Hw.
Qed.

(** X4. The encoding loses nothing of the tree and tells where it ends,
    on any stream whose byte format is decodable. Take two encodings that
    the element encoder returned, on heaps whose vectors fit their counts,
    all of whose writes the stream writes in full (no oversize value).
    When their bytes agree up to what follows them, the two addresses have
    the same tree, the encodings are the same and so is what follows. *)
Theorem encoding_injective {B : Type} (bytes : Datum → list B)
    (lossless : Datum → Prop) (h1 h2 : Heap) (fuel1 fuel2 : nat) (p1 p2 : ptr)
    (t1 t2 : list Datum) (r1 r2 : list B) :
  decodable bytes lossless →
  heap_fits h1 → heap_fits h2 →
  writeElement fuel1 h1 p1 ([] : Trace) = Returned tt t1 →
  writeElement fuel2 h2 p2 ([] : Trace) = Returned tt t2 →
  Forall lossless t1 → Forall lossless t2 →
  flat_map bytes t1 ++ r1 = flat_map bytes t2 ++ r2 →
  reifyElement fuel1 h1 p1 = reifyElement fuel2 h2 p2
  ∧ is_Some (reifyElement fuel1 h1 p1)
  ∧ t1 = t2 ∧ r1 = r2.
Proof.
  intros Hdec Hf1 Hf2 Ht1 Ht2 Hl1 Hl2 Heq.
  destruct (writeElement_tree h1 fuel1 p1 t1 Hf1 Ht1) as (e1 & He1 & Hwf1 & ->).
  destruct (writeElement_tree h2 fuel2 p2 t2 Hf2 Ht2) as (e2 & He2 & Hwf2 & ->).
  destruct (bytes_prefix_free bytes lossless Hdec) as [Hpf _].
  destruct (Hpf e1 Hwf1 Hl1 e2 r1 r2 (conj Hwf2 Hl2) Heq) as [-> ->].
  rewrite He1, He2. done.
Qed.

(** X5. A well-formed heap is encoded. On a closed, well-founded heap
    whose referenced targets have their ids and whose vectors fit their
    counts, the element encoder returns at every address of the heap, with
    one and the same data from the depth on that the rank gives, on every
    stream; and [write] returns [true], having put the header and these
    data, deflated or plain. *)
Theorem well_formed_heap_encodes (h : Heap) (rankN rankC : ptr → nat) (p : ptr) :
  closed h → descends h rankN rankC → references_assigned h → heap_fits h →
  is_Some (writeNodes h !! p) →
  ∃ t : list Datum,
    ∀ fuel, rankN p < fuel →
      (∀ (S : Type) (St : Stream S) (s : S),
         writeElement fuel h p s = Returned tt (emit t s))
      ∧ (∀ (this : TamlBinaryWriter) (compressed : bool) (stream : FileStream),
           write this fuel h p compressed stream
             = Returned true
                 (let header := [DString TAML_SIGNATURE; DU32 (mVersionId this);
                                 DBool compressed] in
                  if compressed
                  then detachStream (emit t (attachStream (emit header stream)))
                  else emit t (emit header stream))).
Proof.
  intros Hclosed Hdesc Hrefs Hfits Hp.
  destruct (reify_succeeds h rankN rankC Hclosed Hdesc Hrefs (Datatypes.S (rankN p)))
    as [Hsome _].
  destruct (Hsome p Hp ltac:(lia)) as [e He].
  destruct (encoders_wire (S:=Trace) h Hfits (Datatypes.S (rankN p))) as [Hw _].
  specialize (Hw p). rewrite He in Hw. specialize (Hw []).
  assert (writeElement (Datatypes.S (rankN p)) h p ([] : Trace)
          = Returned tt (wire_Element e)) as Hw'
    by (by rewrite Hw, emit_Trace).
  exists (wire_Element e). intros fuel Hfuel.
  assert (writeElement fuel h p ([] : Trace) = Returned tt (wire_Element e)) as Ht.
  { rewrite <- Hw'.
    apply (encoders_extend (S:=Trace) (Datatypes.S (rankN p)) fuel ltac:(lia)).
    by rewrite Hw'. }
  split.
  - intros S St s. by apply writeElement_Returned.
  - intros this compressed stream. rewrite write_unfold. cbv zeta.
    destruct compressed; by rewrite (writeElement_Returned _ _ _ _ _ Ht).
Qed.

Lemma contents_deflated (header E : list Datum) (stream : FileStream) :
  status stream = StreamOk →
  length header + 1 ≤ freeSpace stream →
  contents (detachStream (emit E (attachStream (emit header stream))))
    = contents stream ++ map Plain header ++ [Deflated E].
Proof.
  intros Hok Hroom. rewrite (emit_FileStream _ stream Hok) by lia.
  rewrite emit_ZipSubWStream. unfold detachStream, attachStream, FileStream_write.
  simpl. destruct (freeSpace stream - length header) as [|n] eqn:Hn; [lia|].
  simpl. by rewrite <- app_assoc.
Qed.

Lemma contents_plain (header E : list Datum) (stream : FileStream) :
  status stream = StreamOk →
  length header + length E ≤ freeSpace stream →
  contents (emit E (emit header stream))
    = contents stream ++ map Plain header ++ map Plain E.
Proof.
  intros Hok Hroom. rewrite (emit_FileStream _ stream Hok) by lia.
  rewrite emit_FileStream; simpl; [|done|lia]. by rewrite <- app_assoc.
Qed.

(** X6. Compression changes the framing and nothing else. When [write]
    with the flag set returns, the root's encoding returned some data [E];
    the file got the plain header and one deflated block that holds [E];
    and [write] without the flag returns [true] on any stream, having put
    the header and the same [E] plain. *)
Theorem write_compression_transparent (this : TamlBinaryWriter) (fuel : nat)
    (h : Heap) (p : ptr) (stream1 stream1' stream2 : FileStream) (result : bool) :
  write this fuel h p true stream1 = Returned result stream1' →
  ∃ E : list Datum,
    writeElement fuel h p ([] : Trace) = Returned tt E
    ∧ result = true
    ∧ stream1'
        = detachStream
            (emit E (attachStream
                       (emit [DString TAML_SIGNATURE; DU32 (mVersionId this);
                              DBool true] stream1)))
    ∧ write this fuel h p false stream2
        = Returned true
            (emit E (emit [DString TAML_SIGNATURE; DU32 (mVersionId this);
                           DBool false] stream2))
    ∧ (status stream1 = StreamOk → 4 ≤ freeSpace stream1 →
       contents stream1'
         = contents stream1
           ++ map Plain [DString TAML_SIGNATURE; DU32 (mVersionId this); DBool true]
           ++ [Deflated E])
    ∧ (status stream2 = StreamOk → 3 + length E ≤ freeSpace stream2 →
       contents (emit E (emit [DString TAML_SIGNATURE; DU32 (mVersionId this);
                               DBool false] stream2))
         = contents stream2
           ++ map Plain [DString TAML_SIGNATURE; DU32 (mVersionId this); DBool false]
           ++ map Plain E).
Proof.
  rewrite write_unfold. cbv zeta. rewrite writeElement_replay.
  destruct (writeElement fuel h p ([] : Trace)) as [[] E| | |] eqn:HE; try done.
  simpl replay. intros [= <- <-]. exists E.
  split; [done|]. split; [done|]. split; [done|]. split.
  { rewrite write_unfold. cbv zeta. by rewrite (writeElement_Returned _ _ _ _ _ HE). }
  split.
  - intros Hok Hroom.
    apply (contents_deflated [DString TAML_SIGNATURE; DU32 (mVersionId this);
                              DBool true] E stream1 Hok Hroom).
  - intros Hok Hroom.
    apply (contents_plain [DString TAML_SIGNATURE; DU32 (mVersionId this);
                           DBool false] E stream2 Hok Hroom).
Qed.
End Grammar.

Section Cycles.
Context {macros : TamlMacros} {S : Type} `{!Stream S}.

Lemma bind_not_Returned_r {A B} (e : Enc S A) (k : A → Enc S B) (s : S) :
  (∀ a s', kind (k a s') ≠ KReturned) → kind ((e ≫= k) s) ≠ KReturned.
Proof. intros Hk. unfold mbind, Enc_bind. by destruct (e s). Qed.

Lemma forEach_not_Returned {T} (body : T → Enc S unit) (v : list T) (x : T) (s : S) :
  x ∈ v →
  (∀ s', kind (body x s') ≠ KReturned) →
  kind (forEach body v s) ≠ KReturned.
Proof.
  intros Hx Hbody. revert s. induction v as [|y v IH]; intros s.
  - by apply elem_of_nil in Hx.
  - simpl. apply elem_of_cons in Hx as [<-|Hx].
    + by apply bind_not_Returned.
    + apply bind_not_Returned_r. intros _ s'. by apply IH.
Qed.

(** One call down an edge: when the encoder of the far end does not
    return with the depth that is left, the encoder of the near end does
    not return. *)
Lemma follows_not_Returned (fuel : nat) (h : Heap) (a b : Addr) :
  follows h a b →
  (∀ s, kind (encodeAt fuel h b s) ≠ KReturned) →
  ∀ s, kind (encodeAt (Datatypes.S fuel) h a s) ≠ KReturned.
Proof.
  intros Hab Hb s. destruct Hab as [p node q Hp Href Hq|p node c Hp Href Hc
                                   |c node Hc Hproxy|c node c' Hc Hproxy Hfit Hc'];
    unfold encodeAt in *.
  - rewrite (writeElement_unfold_body _ _ _ _ _ Hp Href).
    apply bind_not_Returned_r. intros _ s1. apply bind_not_Returned.
    rewrite (writeChildren_forEach _ _ _ _ _ Hp).
    by apply (forEach_not_Returned _ _ q).
  - rewrite (writeElement_unfold_body _ _ _ _ _ Hp Href).
    apply bind_not_Returned_r. intros _ s1.
    apply bind_not_Returned_r. intros _ s2.
    rewrite (writeCustomElements_layout _ _ _ _ _ Hp).
    by apply (forEach_not_Returned _ _ c).
  - rewrite (writeCustomNode_proxy _ _ _ _ _ Hc Hproxy). apply Hb.
  - simpl. rewrite (deref_bind _ _ _ _ _ Hc).
    rewrite writeString_bind, Hproxy, write_bool_bind. cbv zeta.
    rewrite write_U32_bind. apply bind_not_Returned.
    rewrite guarded_forEach by done.
    by apply (forEach_not_Returned _ _ c').
Qed.

(** X8. The encoders do not detect cycles. At an address that the edges
    the encoders follow lead back to, neither encoder returns, whatever
    depth it is given: the C++ recursion does not end there. *)
Theorem cycle_never_returns (h : Heap) (a : Addr) :
  tc (follows h) a a →
  ∀ (fuel : nat) (s : S), kind (encodeAt fuel h a s) ≠ KReturned.
Proof.
  intros Hcycle fuel.
  assert (∀ y, rtc (follows h) a y → tc (follows h) y a →
               ∀ s, kind (encodeAt fuel h y s) ≠ KReturned) as Hall.
  { induction fuel as [|fuel IH]; intros y Hay Hya s.
    - by destruct y.
    - destruct Hya as [y a' Hstep|y z a' Hstep Hza].
      + apply (follows_not_Returned fuel h y a' Hstep).
        by apply IH.
      + apply (follows_not_Returned fuel h y z Hstep).
        apply IH; [|done]. eapply rtc_r; [exact Hay | exact Hstep]. }
  by apply Hall.
Qed.
End Cycles.

(** ** The theorems at the sample inputs *)

Lemma writeElement_reference_witness :
  (writeNodes sampleHeap !! 3%positive = Some sampleAlias
   ∧ mRefToNode sampleAlias = Some 2%positive
   ∧ writeNodes sampleHeap !! 2%positive = Some sampleSprite
   ∧ mRefId sampleSprite ≠ 0%Z)
  ∧ writeElement (macros:=sampleMacros) 1 sampleHeap 3%positive ([] : Trace)
      = Returned tt [DString "Sprite"; DString ""; DU32 3; DU32 2].
Proof.
  assert (mRefId sampleSprite ≠ 0%Z) as Hid by (vm_compute; discriminate).
  split; [by repeat split|].
  exact (writeElement_reference (macros:=sampleMacros) (S:=Trace) 0 sampleHeap
           3%positive 2%positive sampleAlias sampleSprite []
           eq_refl eq_refl eq_refl Hid).
Defined.

Lemma writeElement_body_witness :
  (writeNodes sampleHeap !! 1%positive = Some sampleScene
   ∧ mRefToNode sampleScene = None)
  ∧ writeElement (macros:=sampleMacros) 4 sampleHeap 1%positive ([] : Trace)
      = Returned tt
          ([DString "Scene"; DString "level"; DU32 1; DS32 0]
           ++ [DU32 1; DString "Gravity"; DLongString 4096 "0 -9.8"]
           ++ [DU32 2; DString "Sprite"; DString ""; DU32 2; DS32 0;
               DU32 0; DU32 0; DU32 0;
               DString "Sprite"; DString ""; DU32 3; DU32 2]
           ++ [DU32 1; DString "Layers"; DBool false; DU32 1;
               DString "Asset"; DBool true;
               DString "ImageAsset"; DString "tiles"; DU32 4; DS32 0;
               DU32 0; DU32 0; DU32 0;
               DU32 1; DString "Depth"; DLongString 8192 "3"]).
Proof.
  split; [by split|].
  destruct (writeElement_body (macros:=sampleMacros) (S:=Trace) 3 sampleHeap
              1%positive sampleScene [] eq_refl eq_refl) as [_ Hbody].
  refine (Hbody [DU32 1; DString "Gravity"; DLongString 4096 "0 -9.8"]
                [DU32 2; DString "Sprite"; DString ""; DU32 2; DS32 0;
                 DU32 0; DU32 0; DU32 0;
                 DString "Sprite"; DString ""; DU32 3; DU32 2]
                [DU32 1; DString "Layers"; DBool false; DU32 1;
                 DString "Asset"; DBool true;
                 DString "ImageAsset"; DString "tiles"; DU32 4; DS32 0;
                 DU32 0; DU32 0; DU32 0;
                 DU32 1; DString "Depth"; DLongString 8192 "3"] _ _ _);
    vm_compute; reflexivity.
Defined.

Lemma write_layout_witness :
  writeElement (macros:=sampleMacros) 1 sampleHeap 3%positive ([] : Trace)
    = Returned tt [DString "Sprite"; DString ""; DU32 3; DU32 2]
  ∧ write (macros:=sampleMacros) sampleWriter 1 sampleHeap 3%positive true (newFile 9)
      = Returned true
          {| contents := [Plain (DString "Taml"); Plain (DU32 2); Plain (DBool true);
                          Deflated [DString "Sprite"; DString ""; DU32 3; DU32 2]];
             freeSpace := 5; status := StreamOk |}
  ∧ write (macros:=sampleMacros) sampleWriter 1 sampleHeap 3%positive false (newFile 9)
      = Returned true
          {| contents := [Plain (DString "Taml"); Plain (DU32 2); Plain (DBool false);
                          Plain (DString "Sprite"); Plain (DString "");
                          Plain (DU32 3); Plain (DU32 2)];
             freeSpace := 2; status := StreamOk |}
  ∧ (∃ stream',
       write (macros:=sampleMacros) sampleWriter 1 sampleHeap 3%positive true (newFile 9)
         = Returned true stream'
       ∧ status stream' = StreamOk
       ∧ contents stream'
           = [Plain (DString "Taml"); Plain (DU32 2); Plain (DBool true);
              Deflated [DString "Sprite"; DString ""; DU32 3; DU32 2]]).
Proof.
  assert (writeElement (macros:=sampleMacros) 1 sampleHeap 3%positive ([] : Trace)
          = Returned tt [DString "Sprite"; DString ""; DU32 3; DU32 2]) as HE
    by (vm_compute; reflexivity).
  split; [exact HE|].
  destruct (write_layout (macros:=sampleMacros) sampleWriter 1 sampleHeap
              3%positive true (newFile 9) _ HE) as [Hzip Hcontents].
  destruct (write_layout (macros:=sampleMacros) sampleWriter 1 sampleHeap
              3%positive false (newFile 9) _ HE) as [Hraw _].
  split; [exact Hzip|]. split; [exact Hraw|].
  apply Hcontents; [reflexivity | vm_compute; lia].
Defined.

Lemma writeCustomNode_layout_witness :
  (customNodes sampleHeap !! 2%positive = Some sampleProxy
   ∧ isProxyObject sampleProxy = true)
  ∧ writeCustomNode (macros:=sampleMacros) 2 sampleHeap 2%positive ([] : Trace)
      = Returned tt
          ([DString "Asset"; DBool true]
           ++ [DString "ImageAsset"; DString "tiles"; DU32 4; DS32 0;
               DU32 0; DU32 0; DU32 0])
  ∧ (customNodes sampleHeap !! 1%positive = Some sampleLayers
     ∧ isProxyObject sampleLayers = false
     ∧ fits_U32 (getChildren sampleLayers)
     ∧ fits_U32 (getFields sampleLayers))
  ∧ writeCustomNode (macros:=sampleMacros) 3 sampleHeap 1%positive ([] : Trace)
      = Returned tt
          ([DString "Layers"; DBool false; DU32 1]
           ++ [DString "Asset"; DBool true;
               DString "ImageAsset"; DString "tiles"; DU32 4; DS32 0;
               DU32 0; DU32 0; DU32 0]
           ++ [DU32 1; DString "Depth"; DLongString 8192 "3"]).
Proof.
  assert (fits_U32 (getChildren sampleLayers)) as Hch by (vm_compute; reflexivity).
  assert (fits_U32 (getFields sampleLayers)) as Hf by (vm_compute; reflexivity).
  destruct (writeCustomNode_layout (macros:=sampleMacros) (S:=Trace) 1 sampleHeap
              2%positive sampleProxy [] eq_refl) as [Hproxy _].
  destruct (Hproxy eq_refl) as [_ HproxyE].
  destruct (writeCustomNode_layout (macros:=sampleMacros) (S:=Trace) 2 sampleHeap
              1%positive sampleLayers [] eq_refl) as [_ Hplain].
  destruct (Hplain eq_refl Hch Hf) as [_ HplainE].
  split; [by split|]. split.
  { refine (HproxyE [DString "ImageAsset"; DString "tiles"; DU32 4; DS32 0;
                      DU32 0; DU32 0; DU32 0] _).
    vm_compute; reflexivity. }
  split; [by repeat split|].
  refine (HplainE [[DString "Asset"; DBool true;
                    DString "ImageAsset"; DString "tiles"; DU32 4; DS32 0;
                    DU32 0; DU32 0; DU32 0]] _).
  repeat constructor.
Defined.

Lemma writeAttributes_layout_witness :
  (writeNodes sampleHeap !! 1%positive = Some sampleScene
   ∧ fits_U32 (mFields sampleScene))
  ∧ writeAttributes sampleHeap 1%positive ([] : Trace)
      = Returned tt [DU32 1; DString "Gravity"; DLongString 4096 "0 -9.8"]
  ∧ (writeNodes sampleHeap !! 2%positive = Some sampleSprite
     ∧ mFields sampleSprite = [])
  ∧ writeAttributes sampleHeap 2%positive ([] : Trace) = Returned tt [DU32 0].
Proof.
  assert (fits_U32 (mFields sampleScene)) as Hfit by (vm_compute; reflexivity).
  destruct (writeAttributes_layout (S:=Trace) sampleHeap 1%positive sampleScene []
              eq_refl) as (Hfields & Hcount & _).
  destruct (writeAttributes_layout (S:=Trace) sampleHeap 2%positive sampleSprite []
              eq_refl) as (_ & _ & Hnone).
  split; [by split|]. split.
  { rewrite Hfields, (Hcount Hfit). reflexivity. }
  split; [by split|]. exact (Hnone eq_refl).
Defined.

Lemma writeChildren_layout_witness :
  (writeNodes sampleHeap !! 1%positive = Some sampleScene)
  ∧ writeChildren (macros:=sampleMacros) 3 sampleHeap 1%positive ([] : Trace)
      = Returned tt
          (DU32 2
           :: [DString "Sprite"; DString ""; DU32 2; DS32 0; DU32 0; DU32 0; DU32 0]
           ++ [DString "Sprite"; DString ""; DU32 3; DU32 2])
  ∧ (writeNodes sampleHeap !! 2%positive = Some sampleSprite
     ∧ mChildren sampleSprite = None)
  ∧ (writeNodes sampleHeap !! 4%positive = Some sampleAsset
     ∧ mChildren sampleAsset = Some [])
  ∧ writeChildren (macros:=sampleMacros) 3 sampleHeap 2%positive ([] : Trace)
      = Returned tt [DU32 0]
  ∧ writeChildren (macros:=sampleMacros) 3 sampleHeap 4%positive ([] : Trace)
      = Returned tt [DU32 0].
Proof.
  destruct (writeChildren_layout (macros:=sampleMacros) (S:=Trace) 3 sampleHeap
              1%positive sampleScene [] eq_refl) as (_ & Hts & _).
  destruct (writeChildren_layout (macros:=sampleMacros) (S:=Trace) 3 sampleHeap
              2%positive sampleSprite [] eq_refl) as (_ & _ & Habsent).
  destruct (writeChildren_layout (macros:=sampleMacros) (S:=Trace) 3 sampleHeap
              4%positive sampleAsset [] eq_refl) as (_ & _ & Hempty).
  split; [done|]. split.
  { refine (Hts [[DString "Sprite"; DString ""; DU32 2; DS32 0; DU32 0; DU32 0; DU32 0];
                 [DString "Sprite"; DString ""; DU32 3; DU32 2]] _).
    repeat constructor. }
  split; [by split|]. split; [by split|].
  split; [apply Habsent; by left | apply Hempty; by right].
Defined.

Lemma write_drops_write_results_witness :
  write (macros:=sampleMacros) sampleWriter 4 sampleHeap 1%positive false (newFile 2)
    = Returned true
        {| contents := [Plain (DString "Taml"); Plain (DU32 2)];
           freeSpace := 0; status := IOError |}
  ∧ true = true
  ∧ (write (macros:=sampleMacros) sampleWriter 1 sampleHeap 3%positive true closedFile
       = Returned true closedFile
     ∧ status closedFile ≠ StreamOk)
  ∧ (write (macros:=sampleMacros) sampleWriter 1 sampleHeap 3%positive true (newFile 9)
       = Returned true
           {| contents := [Plain (DString "Taml"); Plain (DU32 2); Plain (DBool true);
                           Deflated [DString "Sprite"; DString ""; DU32 3; DU32 2]];
              freeSpace := 5; status := StreamOk |})
  ∧ (∃ E : list Datum,
       writeElement (macros:=sampleMacros) 1 sampleHeap 3%positive ([] : Trace)
         = Returned tt E
       ∧ [Plain (DString "Taml"); Plain (DU32 2); Plain (DBool true);
          Deflated [DString "Sprite"; DString ""; DU32 3; DU32 2]]
           = map Plain [DString "Taml"; DU32 2; DBool true] ++ [Deflated E]).
Proof.
  assert (write (macros:=sampleMacros) sampleWriter 4 sampleHeap 1%positive false
            (newFile 2)
          = Returned true
              {| contents := [Plain (DString "Taml"); Plain (DU32 2)];
                 freeSpace := 0; status := IOError |}) as Hfull
    by (vm_compute; reflexivity).
  assert (write (macros:=sampleMacros) sampleWriter 1 sampleHeap 3%positive true
            closedFile = Returned true closedFile) as Hclosed
    by (vm_compute; reflexivity).
  assert (write (macros:=sampleMacros) sampleWriter 1 sampleHeap 3%positive true
            (newFile 9)
          = Returned true
              {| contents := [Plain (DString "Taml"); Plain (DU32 2);
                              Plain (DBool true);
                              Deflated [DString "Sprite"; DString ""; DU32 3; DU32 2]];
                 freeSpace := 5; status := StreamOk |}) as Hgood
    by (vm_compute; reflexivity).
  destruct (write_drops_write_results (macros:=sampleMacros) sampleWriter 4
              sampleHeap 1%positive false (newFile 2)) as [_ Hfull'].
  destruct (Hfull' _ _ Hfull) as [Htrue _].
  destruct (write_drops_write_results (macros:=sampleMacros) sampleWriter 1
              sampleHeap 3%positive true (newFile 9)) as [_ Hgood'].
  destruct (Hgood' _ _ Hgood) as (_ & _ & Hdoc).
  destruct (Hdoc eq_refl) as (_ & E & HE & Hcontents).
  split; [exact Hfull|]. split; [exact Htrue|].
  split; [split; [exact Hclosed | discriminate]|].
  split; [exact Hgood|]. exists E. split; [exact HE | exact Hcontents].
Defined.

(** C7, as the spec has it, fails. The device takes the signature and the
    version and is full then: the write of the flag fails, every later
    write fails, the stream ends in error, and [write] hands back [true].
    A closed file takes nothing at all, and [write] hands back [true]. *)
Lemma write_hides_io_failure :
  (_write (DBool false)
     {| contents := [Plain (DString "Taml"); Plain (DU32 2)];
        freeSpace := 0; status := StreamOk |}).1 = false
  ∧ write (macros:=sampleMacros) sampleWriter 4 sampleHeap 1%positive false (newFile 2)
      = Returned true
          {| contents := [Plain (DString "Taml"); Plain (DU32 2)];
             freeSpace := 0; status := IOError |}
  ∧ ¬ reports_io_failure (macros:=sampleMacros) sampleWriter 4 sampleHeap 1%positive
        false (newFile 2)
  ∧ (_write (DString "Taml") closedFile).1 = false
  ∧ write (macros:=sampleMacros) sampleWriter 4 sampleHeap 1%positive true closedFile
      = Returned true closedFile
  ∧ ¬ reports_io_failure (macros:=sampleMacros) sampleWriter 4 sampleHeap 1%positive
        true closedFile.
Proof.
  split; [reflexivity|]. split; [vm_compute; reflexivity|]. split.
  { intros Hclaim.
    specialize (Hclaim true
      {| contents := [Plain (DString "Taml"); Plain (DU32 2)];
         freeSpace := 0; status := IOError |}).
    discriminate Hclaim; [vm_compute; reflexivity | discriminate]. }
  split; [reflexivity|]. split; [vm_compute; reflexivity|].
  intros Hclaim. specialize (Hclaim true closedFile).
  discriminate Hclaim; [vm_compute; reflexivity | discriminate].
Qed.

Lemma reference_id_assertion_witness :
  (writeNodes brokenHeap !! 3%positive = Some sampleAlias
   ∧ mRefToNode sampleAlias = Some 2%positive
   ∧ writeNodes brokenHeap !! 2%positive = Some unassignedTarget
   ∧ mRefId unassignedTarget = 0%Z)
  ∧ writeElement (macros:=sampleMacros) 1 brokenHeap 3%positive ([] : Trace)
      = AssertFailed "Taml: Invalid reference to Id."
          [DString "Sprite"; DString ""; DU32 3]
  ∧ references_assigned sampleHeap
  ∧ (∀ msg s', writeElement (macros:=sampleMacros) 4 sampleHeap 1%positive ([] : Trace)
               ≠ AssertFailed msg s')
  ∧ (mRefId sampleSprite ≠ 0%Z
     ∧ writeElement (macros:=sampleMacros) 1 sampleHeap 3%positive ([] : Trace)
         = Returned tt [DString "Sprite"; DString ""; DU32 3; DU32 2]).
Proof.
  assert (references_assigned sampleHeap) as Hh by compute_done.
  destruct (reference_id_assertion (macros:=sampleMacros) (S:=Trace) brokenHeap)
    as [Hstop _].
  destruct (reference_id_assertion (macros:=sampleMacros) (S:=Trace) sampleHeap)
    as [_ Hok].
  destruct (Hok Hh) as (Hnever & _ & Hid).
  split; [by repeat split|]. split.
  { exact (Hstop 0 3%positive 2%positive sampleAlias unassignedTarget []
             eq_refl eq_refl eq_refl eq_refl). }
  split; [exact Hh|]. split; [apply Hnever|].
  exact (Hid 0 3%positive 2%positive sampleAlias sampleSprite []
           eq_refl eq_refl eq_refl).
Defined.

Lemma writeElement_empty_witness :
  (writeNodes sampleHeap !! 2%positive = Some sampleSprite
   ∧ mRefToNode sampleSprite = None
   ∧ mFields sampleSprite = []
   ∧ mChildren sampleSprite = None
   ∧ getNodes (mCustomNodes sampleSprite) = [])
  ∧ writeElement (macros:=sampleMacros) 1 sampleHeap 2%positive ([] : Trace)
      = Returned tt ([DString "Sprite"; DString ""; DU32 2; DS32 0]
                     ++ [DU32 0; DU32 0; DU32 0])
  ∧ (writeNodes sampleHeap !! 4%positive = Some sampleAsset
     ∧ mRefToNode sampleAsset = None
     ∧ mFields sampleAsset = []
     ∧ mChildren sampleAsset = Some []
     ∧ getNodes (mCustomNodes sampleAsset) = [])
  ∧ writeElement (macros:=sampleMacros) 1 sampleHeap 4%positive ([] : Trace)
      = Returned tt ([DString "ImageAsset"; DString "tiles"; DU32 4; DS32 0]
                     ++ [DU32 0; DU32 0; DU32 0]).
Proof.
  split; [by repeat split|]. split.
  { exact (writeElement_empty (macros:=sampleMacros) (S:=Trace) 0 sampleHeap
             2%positive sampleSprite [] eq_refl eq_refl eq_refl
             (or_introl eq_refl) eq_refl). }
  split; [by repeat split|].
  exact (writeElement_empty (macros:=sampleMacros) (S:=Trace) 0 sampleHeap
           4%positive sampleAsset [] eq_refl eq_refl eq_refl
           (or_intror eq_refl) eq_refl).
Defined.

Lemma encoders_terminate_witness :
  descends sampleHeap sampleRankN sampleRankC
  ∧ (∃ o, o ≠ OutOfFuel ∧
          ∀ fuel, 3 < fuel →
            writeElement (macros:=sampleMacros) fuel sampleHeap 1%positive ([] : Trace) = o)
  ∧ (∃ o, o ≠ OutOfFuel ∧
          ∀ fuel, 2 < fuel →
            writeCustomNode (macros:=sampleMacros) fuel sampleHeap 1%positive ([] : Trace) = o)
  ∧ (∃ o, o ≠ OutOfFuel ∧
          ∀ fuel, 3 ≤ fuel →
            writeChildren (macros:=sampleMacros) fuel sampleHeap 1%positive ([] : Trace) = o)
  ∧ (∃ o, o ≠ OutOfFuel ∧
          ∀ fuel, 3 ≤ fuel →
            writeCustomElements (macros:=sampleMacros) fuel sampleHeap 1%positive
              ([] : Trace) = o)
  ∧ (writeNodes sampleHeap !! 3%positive = Some sampleAlias
     ∧ mRefToNode sampleAlias = Some 2%positive)
  ∧ writeElement (macros:=sampleMacros) 1 sampleHeap 3%positive ([] : Trace) ≠ OutOfFuel.
Proof.
  assert (descends sampleHeap sampleRankN sampleRankC) as Hd by compute_done.
  destruct (encoders_terminate (macros:=sampleMacros) (S:=Trace) sampleHeap)
    as [Halias Hrank].
  destruct (Hrank sampleRankN sampleRankC Hd) as (He & Hc & Hinner).
  destruct (Hinner 1%positive sampleScene [] eq_refl eq_refl) as [Hch Hcu].
  split; [exact Hd|]. split; [apply (He 1%positive)|].
  split; [apply (Hc 1%positive)|]. split; [exact Hch|]. split; [exact Hcu|].
  split; [by split|].
  apply (Halias 0 3%positive 2%positive sampleAlias [] eq_refl eq_refl).
Defined.

(** The well-foundedness is needed: a node that is its own child uses up
    every depth. *)
Lemma cyclic_children_run_out (fuel : nat) (s : Trace) :
  writeElement (macros:=sampleMacros) fuel cyclicHeap 1%positive s = OutOfFuel.
Proof.
  revert s. induction fuel as [|fuel IH]; intros s; [done|].
  rewrite (writeElement_unfold_body fuel cyclicHeap 1%positive selfChild s eq_refl eq_refl).
  erewrite bind_Returned; [|by apply (writeAttributes_emit cyclicHeap 1%positive selfChild)].
  unfold mbind at 1, Enc_bind at 1.
  rewrite (writeChildren_forEach fuel cyclicHeap 1%positive selfChild _ eq_refl).
  simpl forEach. unfold mbind at 1, Enc_bind at 1. by rewrite IH.
Qed.

(** ** The further properties at the sample inputs *)

Lemma writeCustomElements_trace_witness :
  writeNodes sampleHeap !! 1%positive = Some sampleScene
  ∧ writeCustomElements (macros:=sampleMacros) 3 sampleHeap 1%positive ([] : Trace)
      = Returned tt
          (DU32 1
           :: [DString "Layers"; DBool false; DU32 1;
               DString "Asset"; DBool true;
               DString "ImageAsset"; DString "tiles"; DU32 4; DS32 0;
               DU32 0; DU32 0; DU32 0;
               DU32 1; DString "Depth"; DLongString 8192 "3"])
  ∧ (writeNodes sampleHeap !! 2%positive = Some sampleSprite
     ∧ getNodes (mCustomNodes sampleSprite) = [])
  ∧ writeCustomElements (macros:=sampleMacros) 3 sampleHeap 2%positive ([] : Trace)
      = Returned tt [DU32 0].
Proof.
  destruct (writeCustomElements_trace (macros:=sampleMacros) (S:=Trace) 3 sampleHeap
              1%positive sampleScene [] eq_refl) as [Hts _].
  destruct (writeCustomElements_trace (macros:=sampleMacros) (S:=Trace) 3 sampleHeap
              2%positive sampleSprite [] eq_refl) as [_ Hnone].
  split; [done|]. split.
  { refine (Hts [[DString "Layers"; DBool false; DU32 1;
                  DString "Asset"; DBool true;
                  DString "ImageAsset"; DString "tiles"; DU32 4; DS32 0;
                  DU32 0; DU32 0; DU32 0;
                  DU32 1; DString "Depth"; DLongString 8192 "3"]] _).
    repeat constructor. }
  split; [by split|]. exact (Hnone eq_refl).
Defined.

Lemma encoders_write_trees_witness :
  heap_fits sampleHeap
  ∧ reifyElement 4 sampleHeap 1%positive = Some sampleTree
  ∧ writeElement (macros:=sampleMacros) 4 sampleHeap 1%positive ([] : Trace)
      = Returned tt (wire_Element (macros:=sampleMacros) sampleTree)
  ∧ (∃ e, reifyElement 4 sampleHeap 1%positive = Some e ∧ wf_Element e
          ∧ wire_Element (macros:=sampleMacros) sampleTree
            = wire_Element (macros:=sampleMacros) e)
  ∧ (∃ k, reifyCustomNode 3 sampleHeap 1%positive = Some k
          ∧ writeCustomNode (macros:=sampleMacros) 3 sampleHeap 1%positive ([] : Trace)
            = Returned tt (wire_CustomNode (macros:=sampleMacros) k)).
Proof.
  assert (heap_fits sampleHeap) as Hfits by compute_done.
  destruct (encoders_write_trees (macros:=sampleMacros) sampleHeap 4 Hfits)
    as (Hwrite & Htree & _ & _).
  destruct (encoders_write_trees (macros:=sampleMacros) sampleHeap 3 Hfits)
    as (_ & _ & Hcustom & _).
  assert (reifyElement 4 sampleHeap 1%positive = Some sampleTree) as He
    by (vm_compute; reflexivity).
  pose proof (Hwrite 1%positive sampleTree Trace _ [] He) as Hw.
  rewrite emit_Trace in Hw. simpl app in Hw.
  split; [exact Hfits|]. split; [exact He|]. split; [exact Hw|].
  split; [exact (Htree 1%positive _ Hw)|].
  destruct (reifyCustomNode 3 sampleHeap 1%positive) as [k|] eqn:Hk;
    [|vm_compute in Hk; discriminate].
  exists k. split; [done|].
  pose proof (Hcustom 1%positive k Trace _ [] Hk) as Hc.
  rewrite emit_Trace in Hc. exact Hc.
Defined.

Lemma encoding_injective_witness :
  (decodable sampleBytes sampleLossless
   ∧ heap_fits sampleHeap ∧ heap_fits otherHeap)
  ∧ (writeElement (macros:=sampleMacros) 4 sampleHeap 1%positive ([] : Trace)
       = Returned tt (wire_Element (macros:=sampleMacros) sampleTree)
     ∧ writeElement (macros:=sampleMacros) 5 otherHeap 11%positive ([] : Trace)
         = Returned tt (wire_Element (macros:=sampleMacros) sampleTree)
     ∧ Forall sampleLossless (wire_Element (macros:=sampleMacros) sampleTree))
  ∧ reifyElement 4 sampleHeap 1%positive = reifyElement 5 otherHeap 11%positive
  ∧ is_Some (reifyElement 4 sampleHeap 1%positive).
Proof.
  assert (heap_fits sampleHeap) as Hf1 by compute_done.
  assert (heap_fits otherHeap) as Hf2 by compute_done.
  assert (writeElement (macros:=sampleMacros) 4 sampleHeap 1%positive ([] : Trace)
          = Returned tt (wire_Element (macros:=sampleMacros) sampleTree)) as Ht1
    by (vm_compute; reflexivity).
  assert (writeElement (macros:=sampleMacros) 5 otherHeap 11%positive ([] : Trace)
          = Returned tt (wire_Element (macros:=sampleMacros) sampleTree)) as Ht2
    by (vm_compute; reflexivity).
  assert (Forall sampleLossless (wire_Element (macros:=sampleMacros) sampleTree))
    as Hl by compute_done.
  destruct (encoding_injective (macros:=sampleMacros) sampleBytes sampleLossless
              sampleHeap otherHeap 4 5 1%positive 11%positive _ _ [1%Z] [1%Z]
              sampleBytes_decodable Hf1 Hf2 Ht1 Ht2 Hl Hl eq_refl)
    as (Htree & Hsome & _ & _).
  split; [split; [exact sampleBytes_decodable | by split]|].
  split; [by repeat split|]. split; [exact Htree | exact Hsome].
Defined.

Lemma well_formed_heap_encodes_witness :
  (closed sampleHeap
   ∧ descends sampleHeap sampleRankN sampleRankC
   ∧ references_assigned sampleHeap
   ∧ heap_fits sampleHeap
   ∧ is_Some (writeNodes sampleHeap !! 1%positive))
  ∧ ∃ t : list Datum,
      ∀ fuel, sampleRankN 1%positive < fuel →
        (∀ (S : Type) (St : Stream S) (s : S),
           writeElement (macros:=sampleMacros) fuel sampleHeap 1%positive s
             = Returned tt (emit t s))
        ∧ (∀ (this : TamlBinaryWriter) (compressed : bool) (stream : FileStream),
             write (macros:=sampleMacros) this fuel sampleHeap 1%positive
                   compressed stream
               = Returned true
                   (let header := [DString "Taml"; DU32 (mVersionId this);
                                   DBool compressed] in
                    if compressed
                    then detachStream (emit t (attachStream (emit header stream)))
                    else emit t (emit header stream))).
Proof.
  assert (closed sampleHeap) as Hclosed by compute_done.
  assert (descends sampleHeap sampleRankN sampleRankC) as Hdesc by compute_done.
  assert (references_assigned sampleHeap) as Hrefs by compute_done.
  assert (heap_fits sampleHeap) as Hfits by compute_done.
  assert (is_Some (writeNodes sampleHeap !! 1%positive)) as Hp by (by eexists).
  split; [done|].
  exact (well_formed_heap_encodes (macros:=sampleMacros) sampleHeap
           sampleRankN sampleRankC 1%positive Hclosed Hdesc Hrefs Hfits Hp).
Defined.

Lemma write_compression_transparent_witness :
  write (macros:=sampleMacros) sampleWriter 1 sampleHeap 3%positive true (newFile 9)
    = Returned true
        {| contents := [Plain (DString "Taml"); Plain (DU32 2); Plain (DBool true);
                        Deflated [DString "Sprite"; DString ""; DU32 3; DU32 2]];
           freeSpace := 5; status := StreamOk |}
  ∧ ∃ E : list Datum,
      writeElement (macros:=sampleMacros) 1 sampleHeap 3%positive ([] : Trace)
        = Returned tt E
      ∧ write (macros:=sampleMacros) sampleWriter 1 sampleHeap 3%positive false
              (newFile 9)
          = Returned true
              (emit E (emit [DString "Taml"; DU32 2; DBool false] (newFile 9)))
      ∧ [Plain (DString "Taml"); Plain (DU32 2); Plain (DBool true);
         Deflated [DString "Sprite"; DString ""; DU32 3; DU32 2]]
          = map Plain [DString "Taml"; DU32 2; DBool true] ++ [Deflated E]
      ∧ contents (emit E (emit [DString "Taml"; DU32 2; DBool false] (newFile 9)))
          = map Plain [DString "Taml"; DU32 2; DBool false] ++ map Plain E.
Proof.
  assert (write (macros:=sampleMacros) sampleWriter 1 sampleHeap 3%positive true
            (newFile 9)
          = Returned true
              {| contents := [Plain (DString "Taml"); Plain (DU32 2);
                              Plain (DBool true);
                              Deflated [DString "Sprite"; DString ""; DU32 3; DU32 2]];
                 freeSpace := 5; status := StreamOk |}) as Hw
    by (vm_compute; reflexivity).
  split; [exact Hw|].
  destruct (write_compression_transparent (macros:=sampleMacros) sampleWriter 1
              sampleHeap 3%positive (newFile 9) _ (newFile 9) true Hw)
    as (E & HE & _ & _ & Hplain & Hc1 & Hc2).
  exists E. split; [exact HE|]. split; [exact Hplain|]. split.
  - apply (Hc1 eq_refl). vm_compute. lia.
  - apply (Hc2 eq_refl).
    assert (E = [DString "Sprite"; DString ""; DU32 3; DU32 2]) as ->.
    { vm_compute in HE. by injection HE. }
    vm_compute. lia.
Defined.

Lemma backreference_marker_witness :
  (writeNodes sampleHeap !! 3%positive = Some sampleAlias
   ∧ writeElement (macros:=sampleMacros) 1 sampleHeap 3%positive ([] : Trace)
       = Returned tt [DString "Sprite"; DString ""; DU32 3; DU32 2])
  ∧ (∃ (d : Datum) (rest : list Datum),
       [DString "Sprite"; DString ""; DU32 3; DU32 2]
         = wire_ElementHeader sampleAlias ++ d :: rest
       ∧ (onWire d = DU32 0 ↔ mRefToNode sampleAlias = None))
  ∧ (writeNodes sampleHeap !! 2%positive = Some sampleSprite
     ∧ writeElement (macros:=sampleMacros) 1 sampleHeap 2%positive ([] : Trace)
         = Returned tt [DString "Sprite"; DString ""; DU32 2; DS32 0;
                        DU32 0; DU32 0; DU32 0])
  ∧ (∃ (d : Datum) (rest : list Datum),
       [DString "Sprite"; DString ""; DU32 2; DS32 0; DU32 0; DU32 0; DU32 0]
         = wire_ElementHeader sampleSprite ++ d :: rest
       ∧ (onWire d = DU32 0 ↔ mRefToNode sampleSprite = None)).
Proof.
  assert (writeElement (macros:=sampleMacros) 1 sampleHeap 3%positive ([] : Trace)
          = Returned tt [DString "Sprite"; DString ""; DU32 3; DU32 2]) as Ha
    by (vm_compute; reflexivity).
  assert (writeElement (macros:=sampleMacros) 1 sampleHeap 2%positive ([] : Trace)
          = Returned tt [DString "Sprite"; DString ""; DU32 2; DS32 0;
                         DU32 0; DU32 0; DU32 0]) as Hn
    by (vm_compute; reflexivity).
  split; [by split|]. split.
  { exact (backreference_marker (macros:=sampleMacros) 0 sampleHeap 3%positive
             sampleAlias _ eq_refl Ha). }
  split; [by split|].
  exact (backreference_marker (macros:=sampleMacros) 0 sampleHeap 2%positive
           sampleSprite _ eq_refl Hn).
Defined.

Lemma cycle_never_returns_witness :
  tc (follows cyclicHeap) (ANode 1%positive) (ANode 1%positive)
  ∧ ∀ (fuel : nat) (s : Trace),
      kind (writeElement (macros:=sampleMacros) fuel cyclicHeap 1%positive s)
        ≠ KReturned.
Proof.
  assert (tc (follows cyclicHeap) (ANode 1%positive) (ANode 1%positive)) as Hcycle.
  { apply tc_once.
    apply (follows_child cyclicHeap 1%positive selfChild 1%positive);
      [reflexivity | reflexivity | simpl; apply list_elem_of_here]. }
  split; [exact Hcycle|].
  exact (cycle_never_returns (macros:=sampleMacros) (S:=Trace) cyclicHeap
           (ANode 1%positive) Hcycle).
Defined.
